(** * Past Forward: the generation workflow and the album compositor

    A shallow embedding of the stateful part of the application:

    - [App.tsx] (the component [App]): the five pieces of React state, the
      event handlers [handleImageUpload], [handleGenerateClick],
      [handleRegenerateDecade], [handleReset],
      [handleDownloadIndividualImage], [handleDownloadAlbum], and the
      continuations that run when an awaited promise settles;
    - [lib/albumUtils.ts]: [loadImage] and [createAlbumPage].

    JavaScript runs the handlers on one thread.  A handler runs without
    interruption up to its first [await]; what follows the [await] runs
    when the promise settles.  The embedding therefore has one transition
    per handler invocation and one per settlement of an awaited promise;
    the promise reactions that follow a settlement without any further
    input (the worker loop taking the next decade, [Promise.all]
    returning) are part of that settlement's transition.

    A handler reads the component state through the closure of the
    latest render, and React renders between two events: the embedding
    hands each transition the current state.  What an async function
    captured when it started (the uploaded image of a batch, the
    [imageData] of an album download) is kept with its suspended run.

    The external collaborators are inputs of the transitions:
    [generateDecadeImage] (module [services/geminiService]) through the
    way each call settles, the browser (canvas, image decoding,
    [Math.random]) through a record of oracles. *)

From Stdlib Require Import String List Bool Arith Lia Permutation.
From Stdlib Require Import ZArith Uint63 Floats.
Import ListNotations.
Local Open Scope string_scope.
Local Open Scope list_scope.

(** ** JavaScript values used by the code *)

(** Truthiness of a string ([if (decade)], [image.url], [!uploadedImage]):
    every string but the empty one. *)
Definition truthy (s : string) : bool :=
  match s with
  | EmptyString => false
  | String _ _ => true
  end.

(** Truthiness of [string | null] and [string | undefined]. *)
Definition truthy_opt (o : option string) : bool :=
  match o with
  | None => false
  | Some s => truthy s
  end.

(** A plain object used as a record [Record<string, A>].  Its own keys are
    enumerated in insertion order (the keys of this program are decade
    labels such as ["1950s"], none of which is an array index), so the
    object is the list of its entries in that order. *)
Module JsObject.

Definition t (A : Type) : Type := list (string * A).

Definition empty {A : Type} : t A := [].

(** [o[k]]; [None] is [undefined]. *)
Fixpoint get {A : Type} (k : string) (o : t A) : option A :=
  match o with
  | [] => None
  | (k', v) :: o' => if String.eqb k' k then Some v else get k o'
  end.

(** [o[k] = v], also the last step of [{...o, [k]: v}]: an existing key
    keeps its place and takes the new value, a new key goes last. *)
Fixpoint set {A : Type} (k : string) (v : A) (o : t A) : t A :=
  match o with
  | [] => [(k, v)]
  | (k', v') :: o' =>
      if String.eqb k' k then (k', v) :: o' else (k', v') :: set k v o'
  end.

Definition keys {A : Type} (o : t A) : list string := map fst o.
Definition values {A : Type} (o : t A) : list A := map snd o.
Definition entries {A : Type} (o : t A) : list (string * A) := o.

End JsObject.

(** ** [App.tsx]: data *)

Definition DECADES : list string :=
  ["1950s"; "1960s"; "1970s"; "1980s"; "1990s"; "2000s"].

(** [type ImageStatus = 'pending' | 'done' | 'error'] *)
Inductive ImageStatus : Type := st_pending | st_done | st_error.

Definition ImageStatus_eqb (a b : ImageStatus) : bool :=
  match a, b with
  | st_pending, st_pending | st_done, st_done | st_error, st_error => true
  | _, _ => false
  end.

(** [interface GeneratedImage { status; url?; error? }] *)
Record GeneratedImage : Type := mkImage {
  status : ImageStatus;
  url : option string;
  error : option string
}.

Definition img_pending : GeneratedImage := mkImage st_pending None None.
Definition img_done (resultUrl : string) : GeneratedImage :=
  mkImage st_done (Some resultUrl) None.
Definition img_error (errorMessage : string) : GeneratedImage :=
  mkImage st_error None (Some errorMessage).

Definition Store : Type := JsObject.t GeneratedImage.

Inductive AppState : Type :=
  idle | image_uploaded | generating | results_shown.

(** What a rejected promise carries: an [Error] object with its message,
    or any other value. *)
Inductive Thrown : Type :=
| ErrorObject (message : string)
| OtherValue.

(** How a call of [generateDecadeImage] settles. *)
Inductive Settlement : Type :=
| Fulfilled (resultUrl : string)
| Rejected (err : Thrown).

(** [err instanceof Error ? err.message : "An unknown error occurred."] *)
Definition errorMessage (err : Thrown) : string :=
  match err with
  | ErrorObject message => message
  | OtherValue => "An unknown error occurred."
  end.

(** The entry written when a generation call settles, in [processDecade]
    and in [handleRegenerateDecade] alike. *)
Definition settled_image (s : Settlement) : GeneratedImage :=
  match s with
  | Fulfilled resultUrl => img_done resultUrl
  | Rejected err => img_error (errorMessage err)
  end.

(** The template literal of the prompt. *)
Definition prompt_of (decade : string) : string :=
  "Reimagine the person in this photo in the style of the " ++ decade ++
  ". This includes clothing, hairstyle, photo quality, and the overall aesthetic of that decade. The output must be a photorealistic image showing the person clearly.".

(** One async worker of [handleGenerateClick]: suspended in
    [await processDecade(decade)], or returned. *)
Inductive Worker : Type :=
| Awaiting (decade : string)
| Returned.

(** One run of [handleGenerateClick] past its guard: the image its closure
    captured, the shared [decadesQueue], the workers.  [popped] and
    [written] are history: the decades handed to [processDecade] so far and
    those whose terminal entry has been written, in order; no transition
    reads them. *)
Record Batch : Type := mkBatch {
  b_image : string;
  decadesQueue : list string;
  workers : list Worker;
  popped : list string;
  written : list string
}.

(** One run of [handleRegenerateDecade] past its guards. *)
Record Regen : Type := mkRegen {
  r_image : string;
  r_decade : string;
  r_settled : bool
}.

(** One run of [handleDownloadAlbum] that reached [createAlbumPage]. *)
Record AlbumJob : Type := mkAlbumJob {
  a_imageData : JsObject.t string;
  a_settled : bool
}.

(** The component's state, the suspended async functions, and what the
    component has done to the outside so far (newest first). *)
Record World : Type := mkWorld {
  uploadedImage : option string;
  generatedImages : Store;
  isLoading : bool;
  isDownloading : bool;
  appState : AppState;
  batches : list Batch;
  regens : list Regen;
  albums : list AlbumJob;
  requests : list (string * string);   (* generateDecadeImage(image, prompt) *)
  alerts : list string;                (* alert(message) *)
  saved : list (string * string);      (* link.href, link.download, clicked *)
  console : list string                (* console.log / console.error *)
}.

Definition initial : World :=
  mkWorld None JsObject.empty false false idle [] [] [] [] [] [] [].

(** State setters and effects. *)
Definition setUploadedImage (v : option string) (w : World) : World :=
  mkWorld v (generatedImages w) (isLoading w) (isDownloading w) (appState w)
    (batches w) (regens w) (albums w) (requests w) (alerts w) (saved w) (console w).
Definition setGeneratedImages (f : Store -> Store) (w : World) : World :=
  mkWorld (uploadedImage w) (f (generatedImages w)) (isLoading w) (isDownloading w)
    (appState w) (batches w) (regens w) (albums w) (requests w) (alerts w) (saved w)
    (console w).
Definition setIsLoading (v : bool) (w : World) : World :=
  mkWorld (uploadedImage w) (generatedImages w) v (isDownloading w) (appState w)
    (batches w) (regens w) (albums w) (requests w) (alerts w) (saved w) (console w).
Definition setIsDownloading (v : bool) (w : World) : World :=
  mkWorld (uploadedImage w) (generatedImages w) (isLoading w) v (appState w)
    (batches w) (regens w) (albums w) (requests w) (alerts w) (saved w) (console w).
Definition setAppState (v : AppState) (w : World) : World :=
  mkWorld (uploadedImage w) (generatedImages w) (isLoading w) (isDownloading w) v
    (batches w) (regens w) (albums w) (requests w) (alerts w) (saved w) (console w).
Definition setBatches (v : list Batch) (w : World) : World :=
  mkWorld (uploadedImage w) (generatedImages w) (isLoading w) (isDownloading w)
    (appState w) v (regens w) (albums w) (requests w) (alerts w) (saved w) (console w).
Definition setRegens (v : list Regen) (w : World) : World :=
  mkWorld (uploadedImage w) (generatedImages w) (isLoading w) (isDownloading w)
    (appState w) (batches w) v (albums w) (requests w) (alerts w) (saved w) (console w).
Definition setAlbums (v : list AlbumJob) (w : World) : World :=
  mkWorld (uploadedImage w) (generatedImages w) (isLoading w) (isDownloading w)
    (appState w) (batches w) (regens w) v (requests w) (alerts w) (saved w) (console w).
Definition generateDecadeImage (image prompt : string) (w : World) : World :=
  mkWorld (uploadedImage w) (generatedImages w) (isLoading w) (isDownloading w)
    (appState w) (batches w) (regens w) (albums w) ((image, prompt) :: requests w)
    (alerts w) (saved w) (console w).
Definition alert (message : string) (w : World) : World :=
  mkWorld (uploadedImage w) (generatedImages w) (isLoading w) (isDownloading w)
    (appState w) (batches w) (regens w) (albums w) (requests w) (message :: alerts w)
    (saved w) (console w).
Definition clickLink (href download : string) (w : World) : World :=
  mkWorld (uploadedImage w) (generatedImages w) (isLoading w) (isDownloading w)
    (appState w) (batches w) (regens w) (albums w) (requests w) (alerts w)
    ((href, download) :: saved w) (console w).
Definition consoleWrite (line : string) (w : World) : World :=
  mkWorld (uploadedImage w) (generatedImages w) (isLoading w) (isDownloading w)
    (appState w) (batches w) (regens w) (albums w) (requests w) (alerts w) (saved w)
    (line :: console w).

(** ** [lib/albumUtils.ts] *)

(** Numbers are IEEE 754 binary64 values, as in JavaScript: Rocq's
    primitive floats, with the same rounding of literals and operations. *)
Module Album.

Local Open Scope float_scope.
#[local] Set Warnings "-inexact-float".

(** A list index, or a small count, as a number. *)
Definition number_of_nat (n : nat) : float :=
  PrimFloat.of_uint63 (Uint63.of_Z (Z.of_nat n)).

(** A decoded [HTMLImageElement]: what the code reads of it. *)
Record Image : Type := mkImg {
  src : string;
  naturalWidth : float;
  naturalHeight : float
}.

(** The calls on the 2D context and the property writes, in order. *)
Inductive CanvasOp : Type :=
| set_fillStyle (v : string)
| set_textAlign (v : string)
| set_textBaseline (v : string)
| set_font (v : string)
| set_shadowColor (v : string)
| set_shadowBlur (v : float)
| set_shadowOffsetX (v : float)
| set_shadowOffsetY (v : float)
| fillRect (x y w h : float)
| fillText (text : string) (x y : float)
| ctx_save
| ctx_restore
| translate (x y : float)
| rotate (angle : float)
| drawImage (img : Image) (dx dy dw dh : float).

(** The browser, as far as [createAlbumPage] observes it. *)
Record Browser : Type := mkBrowser {
  getContext2d : bool;                  (* canvas.getContext('2d') is not null *)
  decode : string -> option Image;      (* onload with the image, or onerror *)
  random : nat -> float;                (* the k-th call of Math.random() *)
  toDataURL : list CanvasOp -> string   (* encoding of the painted canvas *)
}.

(** [loadImage]: the promise resolves with the image or rejects with an
    [Error] whose message quotes the first 50 characters of [src]. *)
Definition loadImage (br : Browser) (src : string) : string + Image :=
  match decode br src with
  | Some img => inr img
  | None => inl ("Failed to load image: " ++ substring 0 50 src ++ "...")%string
  end.

(** [Promise.all] over the loads: all images in order, or a rejection.  When
    several loads fail, the promise rejects with the one that fails first
    in time; the embedding takes the first one in list order. *)
Fixpoint Promise_all (loads : list (string + Image)) : string + list Image :=
  match loads with
  | [] => inr []
  | inl e :: _ => inl e
  | inr img :: rest =>
      match Promise_all rest with
      | inl e => inl e
      | inr imgs => inr (img :: imgs)
      end
  end.

Definition canvasWidth : float := 2480.
Definition canvasHeight : float := 3508.

(** Steps 1 and 2: background and title. *)
Definition header_ops : list CanvasOp :=
  [ set_fillStyle "#fdf5e6";
    fillRect 0 0 canvasWidth canvasHeight;
    set_fillStyle "#333";
    set_textAlign "center";
    set_font "bold 100px 'Caveat', cursive";
    fillText "Generated with Past Forward" (canvasWidth / 2) 150;
    set_font "50px 'Roboto', sans-serif";
    set_fillStyle "#555";
    fillText "on Google AI Studio" (canvasWidth / 2) 220 ].

(** Step 4: [const grid = { cols: 2, rows: 3, padding: 100 }]. *)
Definition grid_cols : nat := 2.
Definition grid_rows : nat := 3.
Definition grid_padding : float := 100.
Definition contentTopMargin : float := 300.
Definition contentHeight : float := canvasHeight - contentTopMargin.
Definition cellWidth : float :=
  (canvasWidth - grid_padding * number_of_nat (grid_cols + 1)) / number_of_nat grid_cols.
Definition cellHeight : float :=
  (contentHeight - grid_padding * number_of_nat (grid_rows + 1)) / number_of_nat grid_rows.

Definition polaroidAspectRatio : float := 1.2.
Definition maxPolaroidWidth : float := cellWidth * 0.9.
Definition maxPolaroidHeight : float := cellHeight * 0.9.

(** [let polaroidWidth], [let polaroidHeight] and the [if] that shrinks
    them: the pair (width, height) after the [if]. *)
Definition polaroidSize : float * float :=
  let polaroidWidth := maxPolaroidWidth in
  let polaroidHeight := polaroidWidth * polaroidAspectRatio in
  if maxPolaroidHeight <? polaroidHeight
  then (maxPolaroidHeight / polaroidAspectRatio, maxPolaroidHeight)
  else (polaroidWidth, polaroidHeight).
Definition polaroidWidth : float := fst polaroidSize.
Definition polaroidHeight : float := snd polaroidSize.

Definition imageContainerWidth : float := polaroidWidth * 0.9.
Definition imageContainerHeight : float := imageContainerWidth.

(** The constants of one iteration of [reversedImages.forEach]. *)
Record Polaroid : Type := mkPolaroid {
  decade : string;
  img : Image;
  index : nat;
  row : nat;
  col : nat;
  x : float;
  y : float;
  width : float;          (* of the white frame that fillRect paints *)
  height : float;
  rotation : float;
  drawWidth : float;
  drawHeight : float;
  imgX : float;
  imgY : float;
  captionY : float
}.

(** The body of the callback up to the drawing: [length] is
    [imagesWithDecades.length], [rnd] the value of [Math.random()]. *)
Definition place (length : nat) (rnd : float) (item : string * Image)
    (reversedIndex : nat) : Polaroid :=
  let '(decade, img) := item in
  let index := (length - 1 - reversedIndex)%nat in
  let row := (index / grid_cols)%nat in          (* Math.floor(index / grid.cols) *)
  let col := (index mod grid_cols)%nat in
  let x := grid_padding * number_of_nat (col + 1) + cellWidth * number_of_nat col
           + (cellWidth - polaroidWidth) / 2 in
  let y := contentTopMargin + grid_padding * number_of_nat (row + 1)
           + cellHeight * number_of_nat row + (cellHeight - polaroidHeight) / 2 in
  let rotation := (rnd - 0.5) * 0.1 in
  let aspectRatio := naturalWidth img / naturalHeight img in
  let drawWidth0 := imageContainerWidth in
  let drawHeight0 := drawWidth0 / aspectRatio in
  let drawSize :=
    if imageContainerHeight <? drawHeight0
    then (imageContainerHeight * aspectRatio, imageContainerHeight)
    else (drawWidth0, drawHeight0) in
  let drawWidth := fst drawSize in
  let drawHeight := snd drawSize in
  let imageAreaTopMargin := (polaroidWidth - imageContainerWidth) / 2 in
  let imageContainerY := - polaroidHeight / 2 + imageAreaTopMargin in
  let imgX := - drawWidth / 2 in
  let imgY := imageContainerY + (imageContainerHeight - drawHeight) / 2 in
  let captionAreaTop := imageContainerY + imageContainerHeight in
  let captionAreaBottom := polaroidHeight / 2 in
  let captionY := captionAreaTop + (captionAreaBottom - captionAreaTop) / 2 in
  mkPolaroid decade img index row col x y polaroidWidth polaroidHeight rotation
    drawWidth drawHeight imgX imgY captionY.

(** The drawing of one iteration. *)
Definition paint (p : Polaroid) : list CanvasOp :=
  [ ctx_save;
    translate (x p + width p / 2) (y p + height p / 2);
    rotate (rotation p);
    set_shadowColor "rgba(0, 0, 0, 0.3)";
    set_shadowBlur 35;
    set_shadowOffsetX 5;
    set_shadowOffsetY 10;
    set_fillStyle "#fff";
    fillRect (- width p / 2) (- height p / 2) (width p) (height p);
    set_shadowColor "transparent";
    drawImage (img p) (imgX p) (imgY p) (drawWidth p) (drawHeight p);
    set_fillStyle "#222";
    set_font "60px 'Permanent Marker', cursive";
    set_textAlign "center";
    set_textBaseline "middle";
    fillText (decade p) 0 (captionY p);
    ctx_restore ].

(** [xs.forEach((item, i) => ...)] and [xs.map((item, i) => ...)], counting
    from [i]. *)
Fixpoint mapi_from {A B : Type} (f : A -> nat -> B) (i : nat) (xs : list A) : list B :=
  match xs with
  | [] => []
  | item :: rest => f item i :: mapi_from f (S i) rest
  end.

(** The polaroids in the order in which they are drawn. *)
Definition plan (br : Browser) (imagesWithDecades : list (string * Image)) : list Polaroid :=
  let reversedImages := rev imagesWithDecades in
  mapi_from (fun item reversedIndex =>
               place (length imagesWithDecades) (random br reversedIndex) item reversedIndex)
            0 reversedImages.

(** Everything painted on the canvas when all images have loaded. *)
Definition canvas_ops (br : Browser) (imagesWithDecades : list (string * Image))
    : list CanvasOp :=
  header_ops ++ flat_map paint (plan br imagesWithDecades).

(** [createAlbumPage]: the promise it returns rejects with a message
    ([inl]) or resolves with the data URL of the canvas ([inr]).
    [decades.map((decade, index) => ({decade, img: loadedImages[index]}))]
    pairs two lists of the same length. *)
Definition createAlbumPage (br : Browser) (imageData : JsObject.t string)
    : string + string :=
  if negb (getContext2d br) then inl "Could not get 2D canvas context"%string
  else
    let decades := JsObject.keys imageData in
    match Promise_all (map (loadImage br) (JsObject.values imageData)) with
    | inl e => inl e
    | inr loadedImages =>
        let imagesWithDecades := combine decades loadedImages in
        inr (toDataURL br (canvas_ops br imagesWithDecades))
    end.

End Album.

(** ** [App.tsx]: handlers *)

(** [xs[i] = v] on a list, nothing when [i] is out of range (the
    transitions only use it at an index they have just read). *)
Fixpoint update_nth {A : Type} (i : nat) (v : A) (xs : list A) : list A :=
  match xs, i with
  | [], _ => []
  | _ :: rest, 0 => v :: rest
  | a :: rest, S i' => a :: update_nth i' v rest
  end.

(** [reader.onloadend] of [handleImageUpload]; [reader.result] is [null]
    when the read failed. *)
Definition handleImageUpload (result : option string) (w : World) : World :=
  setGeneratedImages (fun _ => JsObject.empty)
    (setAppState image_uploaded (setUploadedImage result w)).

(** [DECADES.forEach(decade => { initialImages[decade] = { status: 'pending' } })] *)
Definition initialImages : Store :=
  fold_left (fun acc decade => JsObject.set decade img_pending acc) DECADES JsObject.empty.

Definition concurrencyLimit : nat := 2.

(** The worker's [while] loop up to its next [await]:
    [decadesQueue.shift()] until a truthy decade comes out or the queue is
    empty.  The decade to process, if any, and the queue left. *)
Fixpoint worker_loop (queue : list string) : option string * list string :=
  match queue with
  | [] => (None, [])
  | decade :: queue' =>
      if truthy decade then (Some decade, queue') else worker_loop queue'
  end.

(** A worker runs (from its start, or after its [await] returned) up to
    its next [await]: inside [processDecade] the request goes out. *)
Definition worker_run (b : Batch) (w : World) : Worker * Batch * World :=
  match worker_loop (decadesQueue b) with
  | (Some decade, queue') =>
      (Awaiting decade,
       mkBatch (b_image b) queue' (workers b) (popped b ++ [decade]) (written b),
       generateDecadeImage (b_image b) (prompt_of decade) w)
  | (None, queue') =>
      (Returned, mkBatch (b_image b) queue' (workers b) (popped b) (written b), w)
  end.

(** [Array(concurrencyLimit).fill(null).map(async () => ...)]: the
    workers start one after the other, each running to its first [await]. *)
Fixpoint start_workers (n : nat) (b : Batch) (w : World) : Batch * World :=
  match n with
  | 0 => (b, w)
  | S n' =>
      let '(wk, b1, w1) := worker_run b w in
      start_workers n'
        (mkBatch (b_image b1) (decadesQueue b1) (workers b1 ++ [wk]) (popped b1) (written b1))
        w1
  end.

Definition is_returned (wk : Worker) : bool :=
  match wk with
  | Returned => true
  | Awaiting _ => false
  end.

(** Every worker of the batch has returned. *)
Definition finished (b : Batch) : bool := forallb is_returned (workers b).

(** What follows [await Promise.all(workers)]. *)
Definition after_all_workers (w : World) : World :=
  setAppState results_shown (setIsLoading false w).

(** [Promise.all(workers)] returns once every worker has returned. *)
Definition join (b : Batch) (w : World) : World :=
  if finished b then after_all_workers w else w.

Definition handleGenerateClick (w : World) : World :=
  match uploadedImage w with
  | None => w
  | Some image =>
      if negb (truthy image) then w
      else
        let w1 := setGeneratedImages (fun _ => initialImages)
                    (setAppState generating (setIsLoading true w)) in
        let '(b, w2) := start_workers concurrencyLimit (mkBatch image DECADES [] [] []) w1 in
        join b (setBatches (batches w2 ++ [b]) w2)
  end.

(** The rest of [processDecade] when the call of worker [wi] of batch [bi]
    settles with [s], and the worker's loop up to its next [await].
    [None]: that worker is not waiting for a call. *)
Definition processDecade_settled (bi wi : nat) (s : Settlement) (w : World)
    : option World :=
  match nth_error (batches w) bi with
  | None => None
  | Some b =>
      match nth_error (workers b) wi with
      | Some (Awaiting decade) =>
          let w1 := setGeneratedImages (JsObject.set decade (settled_image s)) w in
          let w2 := match s with
                    | Fulfilled _ => w1
                    | Rejected _ =>
                        consoleWrite ("Failed to generate image for " ++ decade ++ ":") w1
                    end in
          let b1 := mkBatch (b_image b) (decadesQueue b) (workers b) (popped b)
                      (written b ++ [decade]) in
          let '(wk, b2, w3) := worker_run b1 w2 in
          let b3 := mkBatch (b_image b2) (decadesQueue b2) (update_nth wi wk (workers b2))
                      (popped b2) (written b2) in
          Some (join b3 (setBatches (update_nth bi b3 (batches w3)) w3))
      | _ => None
      end
  end.

(** [generatedImages[decade]?.status === 'pending'] *)
Definition is_pending (decade : string) (g : Store) : bool :=
  match JsObject.get decade g with
  | Some image => ImageStatus_eqb (status image) st_pending
  | None => false
  end.

Definition handleRegenerateDecade (decade : string) (w : World) : World :=
  match uploadedImage w with
  | None => w
  | Some image =>
      if negb (truthy image) then w
      else if is_pending decade (generatedImages w) then w
      else
        let w1 := consoleWrite ("Regenerating image for " ++ decade ++ "...") w in
        let w2 := setGeneratedImages (JsObject.set decade img_pending) w1 in
        let w3 := generateDecadeImage image (prompt_of decade) w2 in
        setRegens (regens w3 ++ [mkRegen image decade false]) w3
  end.

(** The rest of [handleRegenerateDecade] when the call of its run [ri]
    settles with [s].  [None]: that run is not waiting. *)
Definition handleRegenerateDecade_settled (ri : nat) (s : Settlement) (w : World)
    : option World :=
  match nth_error (regens w) ri with
  | Some (mkRegen image decade false) =>
      let w1 := setGeneratedImages (JsObject.set decade (settled_image s)) w in
      let w2 := match s with
                | Fulfilled _ => w1
                | Rejected _ =>
                    consoleWrite ("Failed to regenerate image for " ++ decade ++ ":") w1
                end in
      Some (setRegens (update_nth ri (mkRegen image decade true) (regens w2)) w2)
  | _ => None
  end.

Definition handleReset (w : World) : World :=
  setAppState idle
    (setGeneratedImages (fun _ => JsObject.empty) (setUploadedImage None w)).

(** [image?.status === 'done' && image.url] *)
Definition is_done_with_url (image : GeneratedImage) : bool :=
  ImageStatus_eqb (status image) st_done && truthy_opt (url image).

Definition handleDownloadIndividualImage (decade : string) (w : World) : World :=
  match JsObject.get decade (generatedImages w) with
  | Some (mkImage st (Some u) _ as image) =>
      if is_done_with_url image
      then clickLink u ("past-forward-" ++ decade ++ ".jpg") w
      else w
  | _ => w
  end.

(** [Object.entries(generatedImages).filter(...).reduce(...)]: the entries
    that pass the filter have a url, [acc[decade] = image!.url!] stores it. *)
Definition imageData_of (g : Store) : JsObject.t string :=
  fold_left
    (fun acc entry =>
       match url (snd entry) with
       | Some u => JsObject.set (fst entry) u acc
       | None => acc
       end)
    (filter (fun entry => is_done_with_url (snd entry)) (JsObject.entries g))
    JsObject.empty.

(** [handleDownloadAlbum] up to its [await]; when the guard alerts, the
    [finally] block runs at once. *)
Definition handleDownloadAlbum (w : World) : World :=
  let w1 := setIsDownloading true w in
  let imageData := imageData_of (generatedImages w1) in
  if Nat.ltb (length (JsObject.keys imageData)) (length DECADES) then
    setIsDownloading false
      (alert "Please wait for all images to finish generating before downloading the album." w1)
  else
    setAlbums (albums w1 ++ [mkAlbumJob imageData false]) w1.

(** The rest of [handleDownloadAlbum] when [createAlbumPage] of its run
    [ai] settles in browser [br]: the download or the [catch] block, then
    [finally].  [None]: that run is not waiting. *)
Definition handleDownloadAlbum_settled (ai : nat) (br : Album.Browser) (w : World)
    : option World :=
  match nth_error (albums w) ai with
  | Some (mkAlbumJob imageData false) =>
      let w1 := match Album.createAlbumPage br imageData with
                | inr albumDataUrl => clickLink albumDataUrl "past-forward-album.jpg" w
                | inl _ =>
                    alert "Sorry, there was an error creating your album. Please try again."
                      (consoleWrite "Failed to create or download album:" w)
                end in
      let w2 := setIsDownloading false w1 in
      Some (setAlbums (update_nth ai (mkAlbumJob imageData true) (albums w2)) w2)
  | _ => None
  end.

(** ** The transition system *)

Inductive Event : Type :=
| ImageLoaded (result : option string)
| GenerateClick
| Shake (decade : string)
| ResetClick
| DownloadOne (decade : string)
| DownloadAlbumClick
| DecadeSettled (bi wi : nat) (s : Settlement)
| RegenSettled (ri : nat) (s : Settlement)
| AlbumSettled (ai : nat) (br : Album.Browser).

Definition step (w : World) (e : Event) : option World :=
  match e with
  | ImageLoaded result => Some (handleImageUpload result w)
  | GenerateClick => Some (handleGenerateClick w)
  | Shake decade => Some (handleRegenerateDecade decade w)
  | ResetClick => Some (handleReset w)
  | DownloadOne decade => Some (handleDownloadIndividualImage decade w)
  | DownloadAlbumClick => Some (handleDownloadAlbum w)
  | DecadeSettled bi wi s => processDecade_settled bi wi s w
  | RegenSettled ri s => handleRegenerateDecade_settled ri s w
  | AlbumSettled ai br => handleDownloadAlbum_settled ai br w
  end.

(** A run: the events in order; [None] when one of them cannot happen. *)
Fixpoint run (w : World) (es : list Event) : option World :=
  match es with
  | [] => Some w
  | e :: es' =>
      match step w e with
      | Some w' => run w' es'
      | None => None
      end
  end.

Definition reachable (w : World) : Prop := exists es, run initial es = Some w.

(** ** [Footer.tsx] *)

Definition REMIX_IDEAS : list string :=
  ["to try different hairstyles.";
   "to turn your pet into a cartoon character.";
   "to create a fantasy version of yourself.";
   "to design a superhero based on your photo.";
   "to place yourself in famous historical events.";
   "to generate a custom video game avatar."].

(** The updater that the interval passes to [setIndex]:
    [prevIndex => (prevIndex + 1) % REMIX_IDEAS.length]. *)
Definition Footer_tick (prevIndex : nat) : nat :=
  (prevIndex + 1) mod length REMIX_IDEAS.

(** [index] after [n] firings of the interval, from [useState(0)]. *)
Definition Footer_index (n : nat) : nat := Nat.iter n Footer_tick 0.

(** [REMIX_IDEAS[index]], the text the footer shows; [None] is [undefined]. *)
Definition Footer_idea (n : nat) : option string :=
  nth_error REMIX_IDEAS (Footer_index n).

(** ** Notions used by the statements *)

(** The decades whose call is in flight in a list of workers. *)
Definition awaiting (ws : list Worker) : list string :=
  flat_map (fun wk => match wk with Awaiting decade => [decade] | Returned => [] end) ws.

(** Worker [wi] of batch [bi] is suspended on the call for [decade]. *)
Definition in_flight (w : World) (bi wi : nat) (decade : string) : Prop :=
  exists b, nth_error (batches w) bi = Some b /\
            nth_error (workers b) wi = Some (Awaiting decade).

(** The reading of the reset scenario in which a settlement that arrives
    after the reset is dropped. *)
Definition reset_drops_settlement : Prop :=
  forall w bi wi decade s w',
    reachable w ->
    in_flight w bi wi decade ->
    run w [ResetClick; DecadeSettled bi wi s] = Some w' ->
    JsObject.get decade (generatedImages w') = None.

(** The entry of [decade] is [Done{imageRef}] or [Error{message}]. *)
Definition terminal (decade : string) (g : Store) : Prop :=
  (exists resultUrl, JsObject.get decade g = Some (img_done resultUrl)) \/
  (exists message, JsObject.get decade g = Some (img_error message)).

(** The settlements of the workers of batch [bi], as events. *)
Definition settlements (bi : nat) (ss : list (nat * Settlement)) : list Event :=
  map (fun ws => DecadeSettled bi (fst ws) (snd ws)) ss.

(** The number of entries that are done and carry a url. *)
Definition done_count (g : Store) : nat :=
  length (filter (fun entry => is_done_with_url (snd entry)) g).

(** The decades that read as done with a url, and the stores whose keys
    are distinct decades. *)
Definition done_decades (g : Store) : list string :=
  filter (fun decade => match JsObject.get decade g with
                        | Some image => is_done_with_url image
                        | None => false
                        end) DECADES.
Definition store_of_decades (g : Store) : Prop :=
  NoDup (JsObject.keys g) /\ incl (JsObject.keys g) DECADES.

(** What holds of every batch at every instant. *)
Record batch_ok (b : Batch) : Prop := mkBatchOk {
  ok_fifo : popped b ++ decadesQueue b = DECADES;
  ok_pool : length (workers b) = concurrencyLimit;
  ok_active : Permutation (popped b) (written b ++ awaiting (workers b));
  ok_drained : In Returned (workers b) -> decadesQueue b = []
}.

(** The batch that a click creates: the two workers have taken the first
    two decades. *)
Definition fresh_batch (image : string) : Batch :=
  mkBatch image ["1970s"; "1980s"; "1990s"; "2000s"]
    [Awaiting "1950s"; Awaiting "1960s"] ["1950s"; "1960s"] [].

(** The batch after worker [wi], whose call for [decade] has settled,
    has run up to its next [await]. *)
Definition batch_after (wi : nat) (decade : string) (b : Batch) : Batch :=
  match decadesQueue b with
  | [] =>
      mkBatch (b_image b) [] (update_nth wi Returned (workers b)) (popped b)
        (written b ++ [decade])
  | next :: queue' =>
      mkBatch (b_image b) queue' (update_nth wi (Awaiting next) (workers b))
        (popped b ++ [next]) (written b ++ [decade])
  end.

(** Batch [bi] after [k] settlements of its calls, when nothing else
    writes the store in between. *)
Definition batch_progress (bi k : nat) (w : World) : Prop :=
  exists b,
    nth_error (batches w) bi = Some b /\
    batch_ok b /\
    length (written b) = k /\
    (forall d, In d (written b) -> terminal d (generatedImages w)) /\
    (forall d, In d DECADES -> ~ In d (written b) ->
               JsObject.get d (generatedImages w) = Some img_pending) /\
    (finished b = true -> isLoading w = false /\ appState w = results_shown).

(** The decade whose call worker [wi] of batch [bi] is waiting for. *)
Definition awaited (w : World) (bi wi : nat) : option string :=
  match nth_error (batches w) bi with
  | Some b =>
      match nth_error (workers b) wi with
      | Some (Awaiting decade) => Some decade
      | _ => None
      end
  | None => None
  end.

(** A batch run against a generation client that settles the call for
    each decade as [outcome] says: [schedule] lists, in order, the worker
    whose call settles next.  [None] when a listed worker is not waiting. *)
Fixpoint run_schedule (outcome : string -> Settlement) (bi : nat)
    (schedule : list nat) (w : World) : option World :=
  match schedule with
  | [] => Some w
  | wi :: rest =>
      match awaited w bi wi with
      | Some decade =>
          match step w (DecadeSettled bi wi (outcome decade)) with
          | Some w' => run_schedule outcome bi rest w'
          | None => None
          end
      | None => None
      end
  end.

(** The entry of [decade] once the decades of [done] have settled. *)
Definition entry_after (outcome : string -> Settlement) (done : list string)
    (decade : string) : GeneratedImage :=
  if existsb (String.eqb decade) done then settled_image (outcome decade)
  else img_pending.

(** Batch [bi], started with [image] when the requests sent were [sent],
    seen from the world: its history against the store, the requests and
    the two flags. *)
Definition batch_history (outcome : string -> Settlement) (bi : nat)
    (image : string) (sent : list (string * string)) (k : nat) (w : World) : Prop :=
  exists b,
    nth_error (batches w) bi = Some b /\
    batch_ok b /\
    b_image b = image /\
    length (written b) = k /\
    generatedImages w
      = map (fun decade => (decade, entry_after outcome (written b) decade)) DECADES /\
    requests w = rev (map (fun decade => (image, prompt_of decade)) (popped b)) ++ sent /\
    (if finished b then isLoading w = false /\ appState w = results_shown
     else isLoading w = true /\ appState w = generating).

(** Events in which a regeneration is only ever asked for a decade. *)
Definition asks_decades (e : Event) : Prop :=
  match e with
  | Shake decade => In decade DECADES
  | _ => True
  end.

(** What holds of the store and of the suspended runs when regenerations
    are only asked for decades. *)
Definition keyed_by_decades (w : World) : Prop :=
  store_of_decades (generatedImages w) /\
  Forall batch_ok (batches w) /\
  Forall (fun r => In (r_decade r) DECADES) (regens w).

(** The urls of the entries that are done with a url, under their keys, in
    the order of the store. *)
Definition done_urls (g : Store) : JsObject.t string :=
  flat_map (fun entry =>
              match url (snd entry) with
              | Some u => if is_done_with_url (snd entry) then [(fst entry, u)] else []
              | None => []
              end) g.

(** The left edge of the card in column [col] and the top edge of the card
    in row [row], before rotation: [x] and [y] of the callback. *)
Definition cell_x (col : nat) : float :=
  (Album.grid_padding * Album.number_of_nat (col + 1)
   + Album.cellWidth * Album.number_of_nat col
   + (Album.cellWidth - Album.polaroidWidth) / 2)%float.
Definition cell_y (row : nat) : float :=
  (Album.contentTopMargin + Album.grid_padding * Album.number_of_nat (row + 1)
   + Album.cellHeight * Album.number_of_nat row
   + (Album.cellHeight - Album.polaroidHeight) / 2)%float.

(** Batch [bi] and the two flags that its run sets: loading and
    'generating' while a worker is still waiting, not loading and
    'results-shown' once [Promise.all] has returned. *)
Definition batch_flags (bi : nat) (w : World) : Prop :=
  exists b,
    nth_error (batches w) bi = Some b /\
    batch_ok b /\
    (if finished b then isLoading w = false /\ appState w = results_shown
     else isLoading w = true /\ appState w = generating).

(** What a reader of the canvas sees of the operations: where the origin
    is moved, which rectangle is filled, which image is drawn and which
    text is written, in the order of the calls. *)
Inductive Mark : Type :=
| MoveTo (x y : float)
| Frame (x y w h : float)
| Photo (img : Album.Image)
| Caption (text : string).

Definition mark_of (op : Album.CanvasOp) : list Mark :=
  match op with
  | Album.translate x y => [MoveTo x y]
  | Album.fillRect x y w h => [Frame x y w h]
  | Album.drawImage img _ _ _ _ => [Photo img]
  | Album.fillText text _ _ => [Caption text]
  | _ => []
  end.

Definition marks (ops : list Album.CanvasOp) : list Mark := flat_map mark_of ops.

(** Each photo with the text written next after it. *)
Fixpoint captioned (ms : list Mark) : list (string * Album.Image) :=
  match ms with
  | [] => []
  | Photo img :: rest =>
      match rest with
      | Caption text :: _ => (text, img) :: captioned rest
      | _ => captioned rest
      end
  | _ :: rest => captioned rest
  end.

(** The page as the layout is specified, to compare with what the code
    paints: the item at position [index] of the enumeration is a card
    centred on the middle of the card area of the cell in row [index / 2],
    column [index mod 2], with its photo and then its label. *)
Definition card_as_specified (item : string * Album.Image) (index : nat) : list Mark :=
  [ MoveTo (cell_x (index mod 2) + Album.polaroidWidth / 2)%float
           (cell_y (index / 2) + Album.polaroidHeight / 2)%float;
    Frame (- Album.polaroidWidth / 2)%float (- Album.polaroidHeight / 2)%float
          Album.polaroidWidth Album.polaroidHeight;
    Photo (snd item);
    Caption (fst item) ].

(** The background and the two title lines, then the cards in reverse
    enumeration order. *)
Definition page_as_specified (items : list (string * Album.Image)) : list Mark :=
  [ Frame 0%float 0%float 2480%float 3508%float;
    Caption "Generated with Past Forward";
    Caption "on Google AI Studio" ]
  ++ concat (rev (Album.mapi_from card_as_specified 0 items)).

(** The cell in column [col], row [row] of the grid, as a rectangle: left
    and top edge; it is [Album.cellWidth] wide and [Album.cellHeight] high. *)
Definition cell_left (col : nat) : float :=
  (Album.grid_padding * Album.number_of_nat (col + 1)
   + Album.cellWidth * Album.number_of_nat col)%float.
Definition cell_top (row : nat) : float :=
  (Album.contentTopMargin + Album.grid_padding * Album.number_of_nat (row + 1)
   + Album.cellHeight * Album.number_of_nat row)%float.

(** ** The store *)

Section StoreFacts.

Context {A : Type}.
Implicit Types (o : JsObject.t A) (k : string) (v : A).

Lemma get_set_same o k v : JsObject.get k (JsObject.set k v o) = Some v.
Proof.
  induction o as [|[k' v'] o IH]; simpl.
  - now rewrite String.eqb_refl.
  - destruct (String.eqb k' k) eqn:E; simpl; rewrite E; auto.
Qed.

Lemma get_set_other o k k' v :
  k' <> k -> JsObject.get k' (JsObject.set k v o) = JsObject.get k' o.
Proof.
  intros Hne. induction o as [|[k0 v0] o IH]; simpl.
  - destruct (String.eqb k k') eqn:E; auto.
    apply String.eqb_eq in E. congruence.
  - destruct (String.eqb k0 k) eqn:E; simpl.
    + apply String.eqb_eq in E. subst k0.
      destruct (String.eqb k k') eqn:E'; auto.
      apply String.eqb_eq in E'. congruence.
    + now rewrite IH.
Qed.

Lemma length_set_le o k v : length (JsObject.set k v o) <= S (length o).
Proof.
  induction o as [|[k' v'] o IH]; simpl; auto.
  destruct (String.eqb k' k); simpl; lia.
Qed.

End StoreFacts.

(** ** Guards of the generation handlers *)

(** C10.  With no uploaded image (the reference is [null]) both the batch
    generation and a single-item regeneration return at once: the world
    after the call is the world before it, so no entry is set to pending,
    no request goes to the generation client, and the store, the app state
    and the flags are as they were. *)
Theorem no_upload_no_generation (w : World) (decade : string) :
  uploadedImage w = None ->
  handleGenerateClick w = w /\ handleRegenerateDecade decade w = w.
Proof.
  intros H. unfold handleGenerateClick, handleRegenerateDecade.
  now rewrite H.
Qed.

Lemma no_upload_no_generation_witness :
  uploadedImage initial = None /\
  handleGenerateClick initial = initial /\
  handleRegenerateDecade "1950s" initial = initial.
Proof.
  split; [reflexivity | apply (no_upload_no_generation initial "1950s"); reflexivity].
Defined.

(** C5.  Regenerating a decade whose entry is pending does nothing: the
    world after the call is the world before it.  The store is unchanged,
    the list of requests sent to the generation client is unchanged, and
    the suspended workers and regenerations (among them the one in flight
    for that decade) are unchanged. *)
Theorem regenerate_pending_noop (w : World) (decade : string) (image : GeneratedImage) :
  JsObject.get decade (generatedImages w) = Some image ->
  status image = st_pending ->
  handleRegenerateDecade decade w = w.
Proof.
  intros Hget Hst. unfold handleRegenerateDecade, is_pending.
  rewrite Hget, Hst. simpl.
  destruct (uploadedImage w) as [img|]; [|reflexivity].
  now destruct (truthy img).
Qed.

Lemma regenerate_pending_noop_witness :
  let w := handleGenerateClick (handleImageUpload (Some "data:image/png;base64,AA") initial) in
  JsObject.get "1950s" (generatedImages w) = Some img_pending /\
  in_flight w 0 0 "1950s" /\
  handleRegenerateDecade "1950s" w = w.
Proof.
  split; [reflexivity|]. split.
  - eexists. split; reflexivity.
  - apply (regenerate_pending_noop _ "1950s" img_pending); reflexivity.
Defined.

(** ** What a settlement writes *)

Lemma generatedImages_join b w : generatedImages (join b w) = generatedImages w.
Proof. unfold join. now destruct (finished b). Qed.

Lemma generatedImages_worker_run b w :
  generatedImages (snd (worker_run b w)) = generatedImages w.
Proof. unfold worker_run. now destruct (worker_loop (decadesQueue b)) as [[d|] q]. Qed.

(** The store after the settlement of a batch call is the store before it
    with the entry of the decade written, whatever else the transition does. *)
Lemma processDecade_settled_store w bi wi decade s :
  in_flight w bi wi decade ->
  exists w', processDecade_settled bi wi s w = Some w' /\
             generatedImages w' =
               JsObject.set decade (settled_image s) (generatedImages w).
Proof.
  intros (b & Hb & Hw). unfold processDecade_settled. rewrite Hb, Hw.
  match goal with |- context [worker_run ?b1 ?w2] =>
    pose proof (generatedImages_worker_run b1 w2) as Hrun;
    destruct (worker_run b1 w2) as [[wk b2] w3] end.
  eexists. split; [reflexivity|].
  rewrite generatedImages_join. simpl in *. rewrite Hrun. now destruct s.
Qed.

(** C1 (as amended).  A reset while a batch call is in flight empties the
    store at that moment, and the call's later settlement is not dropped:
    it is applied to the store of that later moment, so the decade's key is
    back, with the terminal entry of the settlement, as the only entry. *)
Theorem reset_then_settlement_reappears
    (w : World) (bi wi : nat) (decade : string) (s : Settlement) :
  in_flight w bi wi decade ->
  generatedImages (handleReset w) = JsObject.empty /\
  exists w', run w [ResetClick; DecadeSettled bi wi s] = Some w' /\
             generatedImages w' = [(decade, settled_image s)].
Proof.
  intros Hfl. split; [reflexivity|].
  assert (Hfl' : in_flight (handleReset w) bi wi decade) by exact Hfl.
  destruct (processDecade_settled_store _ _ _ _ s Hfl') as (w' & Hstep & Hg).
  exists w'. simpl. rewrite Hstep. split; [reflexivity|]. exact Hg.
Qed.

Lemma reset_then_settlement_reappears_witness :
  let w := handleGenerateClick (handleImageUpload (Some "data:image/png;base64,AA") initial) in
  in_flight w 0 1 "1960s" /\
  generatedImages (handleReset w) = JsObject.empty /\
  exists w', run w [ResetClick; DecadeSettled 0 1 (Rejected (ErrorObject "timeout"))] = Some w' /\
             generatedImages w' = [("1960s", img_error "timeout")].
Proof.
  intros w.
  assert (H : in_flight w 0 1 "1960s").
  { exists (mkBatch "data:image/png;base64,AA" ["1970s"; "1980s"; "1990s"; "2000s"]
              [Awaiting "1950s"; Awaiting "1960s"] ["1950s"; "1960s"] []).
    split; vm_compute; reflexivity. }
  split; [exact H|].
  exact (reset_then_settlement_reappears w 0 1 "1960s" (Rejected (ErrorObject "timeout")) H).
Defined.

(** C1, counterexample to the claim as stated: upload, generate, reset
    while the call for "1950s" is in flight, then that call resolves; the
    cleared store has the key "1950s" again. *)
Lemma reset_drops_settlement_fails : ~ reset_drops_settlement.
Proof.
  intros H.
  pose (es := [ImageLoaded (Some "data:image/png;base64,AA"); GenerateClick]).
  pose (w := handleGenerateClick
               (handleImageUpload (Some "data:image/png;base64,AA") initial)).
  assert (Hreach : reachable w) by (exists es; vm_compute; reflexivity).
  assert (Hfl : in_flight w 0 0 "1950s").
  { exists (mkBatch "data:image/png;base64,AA" ["1970s"; "1980s"; "1990s"; "2000s"]
              [Awaiting "1950s"; Awaiting "1960s"] ["1950s"; "1960s"] []).
    split; vm_compute; reflexivity. }
  clearbody w.
  destruct (processDecade_settled_store (handleReset w) 0 0 "1950s"
              (Fulfilled "data:image/png;base64,BB") Hfl) as (w' & Hstep & Hg).
  assert (Hrun : run w [ResetClick; DecadeSettled 0 0 (Fulfilled "data:image/png;base64,BB")]
                 = Some w') by (cbn [run step]; now rewrite Hstep).
  specialize (H w 0 0 "1950s" (Fulfilled "data:image/png;base64,BB") w' Hreach Hfl Hrun).
  rewrite Hg in H. vm_compute in H. discriminate H.
Qed.

(** ** Single-item regeneration *)

(** C6.  A regeneration of [decade] writes only the entry of [decade]:
    every other entry reads the same after the call as before it, and the
    same after the settlement as before it.  When an image is uploaded and
    the entry is not pending, the call sets the entry to
    [{ status: 'pending' }] and sends one request; when that request
    resolves with [resultUrl], the entry becomes
    [{ status: 'done', url: resultUrl }]; when it is rejected, the entry
    becomes [{ status: 'error', error: message }], with the message of the
    [Error] thrown, or "An unknown error occurred." for any other value. *)
Theorem regenerate_touches_one_entry (w : World) (decade : string) :
  let w1 := handleRegenerateDecade decade w in
  let ri := length (regens w) in
  (forall d, d <> decade ->
     JsObject.get d (generatedImages w1) = JsObject.get d (generatedImages w)) /\
  (forall image rj s w2 w3,
     nth_error (regens w2) rj = Some (mkRegen image decade false) ->
     handleRegenerateDecade_settled rj s w2 = Some w3 ->
     forall d, d <> decade ->
       JsObject.get d (generatedImages w3) = JsObject.get d (generatedImages w2)) /\
  (forall image,
     uploadedImage w = Some image -> truthy image = true ->
     is_pending decade (generatedImages w) = false ->
     JsObject.get decade (generatedImages w1) = Some (mkImage st_pending None None) /\
     requests w1 = (image, prompt_of decade) :: requests w /\
     nth_error (regens w1) ri = Some (mkRegen image decade false) /\
     forall w2,
       nth_error (regens w2) ri = Some (mkRegen image decade false) ->
       (forall resultUrl,
          exists w3, handleRegenerateDecade_settled ri (Fulfilled resultUrl) w2 = Some w3 /\
                     JsObject.get decade (generatedImages w3)
                     = Some (mkImage st_done (Some resultUrl) None)) /\
       (forall message,
          exists w3, handleRegenerateDecade_settled ri (Rejected (ErrorObject message)) w2
                     = Some w3 /\
                     JsObject.get decade (generatedImages w3)
                     = Some (mkImage st_error None (Some message))) /\
       (exists w3, handleRegenerateDecade_settled ri (Rejected OtherValue) w2 = Some w3 /\
                   JsObject.get decade (generatedImages w3)
                   = Some (mkImage st_error None (Some "An unknown error occurred.")))).
Proof.
  cbv zeta. split; [|split].
  - intros d Hd. unfold handleRegenerateDecade.
    destruct (uploadedImage w) as [img|]; [|reflexivity].
    destruct (truthy img); [|reflexivity]. simpl.
    destruct (is_pending decade (generatedImages w)); [reflexivity|].
    simpl. now apply get_set_other.
  - intros image rj s w2 w3 Hr Hs d Hd.
    unfold handleRegenerateDecade_settled in Hs. rewrite Hr in Hs.
    injection Hs as <-. destruct s; simpl; now apply get_set_other.
  - intros image Hup Htr Hpe. unfold handleRegenerateDecade.
    rewrite Hup, Htr, Hpe. simpl. split; [apply get_set_same|].
    split; [reflexivity|].
    split; [rewrite nth_error_app2, Nat.sub_diag; [reflexivity | lia]|].
    intros w2 Hr. unfold handleRegenerateDecade_settled. rewrite Hr.
    split; [|split].
    + intros resultUrl. eexists. split; [reflexivity|]. simpl. apply get_set_same.
    + intros message. eexists. split; [reflexivity|]. simpl. apply get_set_same.
    + eexists. split; [reflexivity|]. simpl. apply get_set_same.
Qed.

Lemma regenerate_touches_one_entry_witness :
  let w := {| uploadedImage := Some "data:image/png;base64,AA";
              generatedImages := [("1950s", img_done "data:a"); ("1960s", img_error "timeout")];
              isLoading := false; isDownloading := false; appState := results_shown;
              batches := []; regens := []; albums := [];
              requests := []; alerts := []; saved := []; console := [] |} in
  let w1 := handleRegenerateDecade "1960s" w in
  (uploadedImage w = Some "data:image/png;base64,AA" /\
   truthy "data:image/png;base64,AA" = true /\
   is_pending "1960s" (generatedImages w) = false) /\
  generatedImages w1
    = [("1950s", mkImage st_done (Some "data:a") None);
       ("1960s", mkImage st_pending None None)] /\
  (exists w3, handleRegenerateDecade_settled 0 (Fulfilled "data:b") w1 = Some w3 /\
              JsObject.get "1960s" (generatedImages w3)
              = Some (mkImage st_done (Some "data:b") None)) /\
  (exists w3, handleRegenerateDecade_settled 0 (Rejected (ErrorObject "quota")) w1 = Some w3 /\
              JsObject.get "1960s" (generatedImages w3)
              = Some (mkImage st_error None (Some "quota"))) /\
  (exists w3, handleRegenerateDecade_settled 0 (Rejected OtherValue) w1 = Some w3 /\
              JsObject.get "1960s" (generatedImages w3)
              = Some (mkImage st_error None (Some "An unknown error occurred."))).
Proof.
  cbv zeta.
  match goal with |- context [handleRegenerateDecade "1960s" ?w0] =>
    pose proof (regenerate_touches_one_entry w0 "1960s") as H end.
  cbv zeta in H. destruct H as (_ & _ & Hrun).
  specialize (Hrun "data:image/png;base64,AA" eq_refl eq_refl eq_refl).
  destruct Hrun as (_ & _ & Hr & Hsettle).
  destruct (Hsettle _ Hr) as (Hok & Herr & Hother).
  split; [repeat split|]. split; [vm_compute; reflexivity|].
  split; [exact (Hok "data:b")|]. split; [exact (Herr "quota") | exact Hother].
Defined.

(** ** The album download *)

Lemma length_fold_set {B : Type} (f : string * B -> option string)
    (l : list (string * B)) (acc : JsObject.t string) :
  length (fold_left (fun acc entry =>
                       match f entry with
                       | Some u => JsObject.set (fst entry) u acc
                       | None => acc
                       end) l acc)
  <= length acc + length l.
Proof.
  revert acc. induction l as [|e l IH]; intros acc; simpl; [lia|].
  destruct (f e) as [u|].
  - specialize (IH (JsObject.set (fst e) u acc)).
    pose proof (length_set_le acc (fst e) u). lia.
  - specialize (IH acc). lia.
Qed.

(** [imageData] has at most as many keys as the store has entries that
    are done with a url. *)
Lemma imageData_keys_le (g : Store) :
  length (JsObject.keys (imageData_of g)) <= done_count g.
Proof.
  unfold JsObject.keys, imageData_of, done_count, JsObject.entries.
  rewrite length_map.
  exact (length_fold_set (fun entry => url (snd entry)) _ JsObject.empty).
Qed.

Lemma get_of_entry {A : Type} (o : JsObject.t A) (k : string) (v : A) :
  NoDup (JsObject.keys o) -> In (k, v) o -> JsObject.get k o = Some v.
Proof.
  unfold JsObject.keys. induction o as [|[k' v'] o IH]; simpl; intros Hnd Hin;
    [contradiction|].
  inversion Hnd as [|? ? Hnotin Hnd']; subst.
  destruct Hin as [Heq|Hin].
  - injection Heq as -> ->. now rewrite String.eqb_refl.
  - destruct (String.eqb k' k) eqn:E; [|auto].
    apply String.eqb_eq in E. subst k'. exfalso. apply Hnotin.
    change k with (fst (k, v)). now apply in_map.
Qed.

Lemma NoDup_keys_filter {A : Type} (f : string * A -> bool) (o : JsObject.t A) :
  NoDup (map fst o) -> NoDup (map fst (filter f o)).
Proof.
  induction o as [|e o IH]; simpl; intros Hnd; [constructor|].
  inversion Hnd as [|? ? Hnotin Hnd']; subst.
  destruct (f e); simpl; [|auto]. constructor; [|auto].
  intros Hin. apply Hnotin. apply in_map_iff in Hin. destruct Hin as (x & Hx & Hin).
  apply filter_In in Hin. rewrite <- Hx. apply in_map, Hin.
Qed.

(** In a store whose keys are distinct decades, the entries that are done
    with a url are as many as the decades that read so. *)
Lemma done_count_decades (g : Store) :
  store_of_decades g -> done_count g <= length (done_decades g).
Proof.
  intros [Hnd Hincl]. unfold done_count.
  rewrite <- (length_map fst). apply NoDup_incl_length.
  - now apply NoDup_keys_filter.
  - intros k Hk. apply in_map_iff in Hk. destruct Hk as ([k' image] & <- & Hin).
    apply filter_In in Hin. destruct Hin as [Hin Hdone]. simpl in *.
    apply filter_In. split.
    + apply Hincl. unfold JsObject.keys. change k' with (fst (k', image)).
      now apply in_map.
    + now rewrite (get_of_entry g k' image Hnd Hin).
Qed.

(** C4.  When fewer entries than there are decades (six) are done with an
    image url (in a store whose keys are distinct decades: when fewer than
    six decades are), the album download does not reach [createAlbumPage]:
    no run of the compositor is started (so nothing is drawn on a canvas),
    the user gets the "please wait" alert, nothing is saved, the
    in-progress flag is back to false, and the store is unchanged. *)
Theorem download_blocked_when_incomplete (w : World) :
  done_count (generatedImages w) < length DECADES \/
  (store_of_decades (generatedImages w) /\
   length (done_decades (generatedImages w)) < length DECADES) ->
  let w' := handleDownloadAlbum w in
  albums w' = albums w /\
  alerts w' =
    "Please wait for all images to finish generating before downloading the album."
    :: alerts w /\
  saved w' = saved w /\
  generatedImages w' = generatedImages w /\
  isDownloading w' = false.
Proof.
  intros Hfew.
  assert (Hlt : done_count (generatedImages w) < length DECADES).
  { destruct Hfew as [H|[Hwf H]]; [exact H|].
    pose proof (done_count_decades _ Hwf). lia. }
  unfold handleDownloadAlbum.
  pose proof (imageData_keys_le (generatedImages w)) as Hle.
  cbn [generatedImages setIsDownloading].
  destruct (Nat.ltb_spec (length (JsObject.keys (imageData_of (generatedImages w))))
                         (length DECADES)) as [_|Hge]; [|lia].
  repeat split.
Qed.

Lemma download_blocked_when_incomplete_witness :
  let w := {| uploadedImage := Some "data:image/png;base64,AA";
              generatedImages :=
                [("1950s", img_done "data:a"); ("1960s", img_error "timeout");
                 ("1970s", img_done "data:c"); ("1980s", img_done "data:d");
                 ("1990s", img_pending); ("2000s", img_done "data:f")];
              isLoading := false; isDownloading := false; appState := results_shown;
              batches := []; regens := []; albums := [];
              requests := []; alerts := []; saved := []; console := [] |} in
  done_count (generatedImages w) = 4 /\
  done_decades (generatedImages w) = ["1950s"; "1970s"; "1980s"; "2000s"] /\
  albums (handleDownloadAlbum w) = [] /\
  generatedImages (handleDownloadAlbum w) = generatedImages w.
Proof.
  intros w. split; [reflexivity|]. split; [reflexivity|].
  assert (H : done_count (generatedImages w) < length DECADES) by (vm_compute; lia).
  destruct (download_blocked_when_incomplete w (or_introl H)) as (Ha & _ & _ & Hg & _).
  split; [exact Ha | exact Hg].
Defined.

(** One failed decode makes [Promise.all] reject. *)
Lemma Promise_all_rejects (br : Album.Browser) (urls : list string) :
  (exists u, In u urls /\ Album.decode br u = None) ->
  exists e, Album.Promise_all (map (Album.loadImage br) urls) = inl e.
Proof.
  intros (u & Hin & Hdec). induction urls as [|u' urls IH]; [contradiction|].
  simpl. unfold Album.loadImage at 1.
  destruct (Album.decode br u') as [img|] eqn:E; [|eauto].
  destruct Hin as [->|Hin]; [congruence|].
  destruct (IH Hin) as (e & ->). eauto.
Qed.

(** C7.  [handleDownloadAlbum] never writes the store.  When
    [createAlbumPage] settles, the in-progress flag is reset to false and
    the store is as it was, whether the page was produced or not.  If one
    of the input images fails to decode, [createAlbumPage] rejects (it
    returns no data URL), nothing is saved and the user gets the generic
    failure alert. *)
Theorem album_decode_failure_is_total :
  (forall w0, generatedImages (handleDownloadAlbum w0) = generatedImages w0) /\
  (forall w ai br imageData,
     nth_error (albums w) ai = Some (mkAlbumJob imageData false) ->
     exists w', handleDownloadAlbum_settled ai br w = Some w' /\
       generatedImages w' = generatedImages w /\
       isDownloading w' = false /\
       ((exists u, In u (JsObject.values imageData) /\ Album.decode br u = None) ->
        (exists e, Album.createAlbumPage br imageData = inl e) /\
        saved w' = saved w /\
        alerts w' =
          "Sorry, there was an error creating your album. Please try again."
          :: alerts w)).
Proof.
  split.
  - intros w0. unfold handleDownloadAlbum.
    now destruct (Nat.ltb _ _).
  - intros w ai br imageData Hjob. unfold handleDownloadAlbum_settled.
    rewrite Hjob. eexists. split; [reflexivity|].
    split; [now destruct (Album.createAlbumPage br imageData)|].
    split; [reflexivity|].
    intros Hbad.
    assert (Hrej : exists e, Album.createAlbumPage br imageData = inl e).
    { unfold Album.createAlbumPage.
      destruct (negb (Album.getContext2d br)); [eauto|].
      destruct (Promise_all_rejects br _ Hbad) as (e & ->). eauto. }
    split; [exact Hrej|]. destruct Hrej as (e & ->). split; reflexivity.
Qed.

Lemma album_decode_failure_is_total_witness :
  let br := Album.mkBrowser true
              (fun u => if String.eqb u "data:c" then None
                        else Some (Album.mkImg u 1024%float 1024%float))
              (fun _ => 0.5%float)
              (fun _ => "data:image/jpeg;base64,album") in
  let imageData := [("1950s", "data:a"); ("1960s", "data:b"); ("1970s", "data:c");
                    ("1980s", "data:d"); ("1990s", "data:e"); ("2000s", "data:f")] in
  let w := {| uploadedImage := Some "data:image/png;base64,AA";
              generatedImages := map (fun e => (fst e, img_done (snd e))) imageData;
              isLoading := false; isDownloading := true; appState := results_shown;
              batches := []; regens := []; albums := [mkAlbumJob imageData false];
              requests := []; alerts := []; saved := []; console := [] |} in
  Album.decode br "data:c" = None /\
  exists w', handleDownloadAlbum_settled 0 br w = Some w' /\
             generatedImages w' = generatedImages w /\
             isDownloading w' = false /\
             saved w' = [] /\
             (exists e, Album.createAlbumPage br imageData = inl e).
Proof.
  intros br imageData w. split; [reflexivity|].
  destruct (proj2 album_decode_failure_is_total w 0 br imageData eq_refl)
    as (w' & Hs & Hg & Hd & Hfail).
  assert (Hbad : exists u, In u (JsObject.values imageData) /\ Album.decode br u = None).
  { exists "data:c". split; [simpl; auto | reflexivity]. }
  destruct (Hfail Hbad) as (Hrej & Hsaved & _).
  exists w'. repeat split; assumption.
Defined.

(** ** The layout of the album page *)

Section Indexed.

Context {A B : Type}.

Lemma mapi_from_app (f : A -> nat -> B) (i : nat) (xs ys : list A) :
  Album.mapi_from f i (xs ++ ys)
  = Album.mapi_from f i xs ++ Album.mapi_from f (i + length xs) ys.
Proof.
  revert i. induction xs as [|a xs IH]; intros i; simpl.
  - now rewrite Nat.add_0_r.
  - rewrite IH. now rewrite Nat.add_succ_r.
Qed.

(** Two callbacks that agree on the indices the traversal visits. *)
Lemma mapi_from_ext (f g : A -> nat -> B) (i : nat) (xs : list A) :
  (forall a j, i <= j < i + length xs -> f a j = g a j) ->
  Album.mapi_from f i xs = Album.mapi_from g i xs.
Proof.
  revert i. induction xs as [|a xs IH]; intros i H; simpl; [reflexivity|].
  rewrite (H a i) by (simpl; lia). f_equal.
  apply IH. intros b j Hj. apply H. simpl. lia.
Qed.

Lemma mapi_from_succ (f : A -> nat -> B) (i : nat) (xs : list A) :
  Album.mapi_from f (S i) xs = Album.mapi_from (fun a j => f a (S j)) i xs.
Proof.
  revert i. induction xs as [|a xs IH]; intros i; simpl; [reflexivity|].
  now rewrite IH.
Qed.

(** Traversing the reversed list while counting back from the last index
    visits every item with its own index, last item first. *)
Lemma mapi_from_rev (g : A -> nat -> B) (xs : list A) :
  Album.mapi_from (fun a reversedIndex => g a (length xs - 1 - reversedIndex)) 0 (rev xs)
  = rev (Album.mapi_from g 0 xs).
Proof.
  revert g. induction xs as [|a xs IH]; intros g; [reflexivity|].
  cbn [rev Album.mapi_from length].
  rewrite mapi_from_app. cbn [Album.mapi_from].
  rewrite length_rev, Nat.add_0_l.
  replace (S (length xs) - 1 - length xs) with 0 by lia.
  f_equal. rewrite mapi_from_succ, <- IH.
  apply mapi_from_ext. intros b j Hj. rewrite length_rev in Hj.
  f_equal. lia.
Qed.

End Indexed.

Lemma mapi_from_map {A B C : Type} (h : A -> B) (f : B -> nat -> C) (i : nat) (xs : list A) :
  Album.mapi_from f i (map h xs) = Album.mapi_from (fun a j => f (h a) j) i xs.
Proof.
  revert i. induction xs as [|a xs IH]; intros i; simpl; [reflexivity|].
  now rewrite IH.
Qed.

Lemma map_mapi_from {A B C : Type} (h : B -> C) (f : A -> nat -> B) (i : nat) (xs : list A) :
  map h (Album.mapi_from f i xs) = Album.mapi_from (fun a j => h (f a j)) i xs.
Proof.
  revert i. induction xs as [|a xs IH]; intros i; simpl; [reflexivity|].
  now rewrite IH.
Qed.

Lemma Forall_mapi_from {A B : Type} (P : B -> Prop) (f : A -> nat -> B) (i : nat)
    (xs : list A) :
  (forall a j, P (f a j)) -> Forall P (Album.mapi_from f i xs).
Proof.
  intros H. revert i. induction xs as [|a xs IH]; intros i; simpl; constructor; auto.
Qed.

(** When every load succeeds there is one image per url, in order. *)
Lemma Promise_all_length (loads : list (string + Album.Image)) (imgs : list Album.Image) :
  Album.Promise_all loads = inr imgs -> length imgs = length loads.
Proof.
  revert imgs. induction loads as [|[e|img] loads IH]; intros imgs H; simpl in H.
  - now injection H as <-.
  - discriminate.
  - destruct (Album.Promise_all loads) as [e|imgs']; [discriminate|].
    injection H as <-. simpl. now rewrite (IH imgs').
Qed.

Lemma map_fst_combine {A B : Type} (xs : list A) (ys : list B) :
  length ys = length xs -> map fst (combine xs ys) = xs.
Proof.
  revert ys. induction xs as [|a xs IH]; intros [|b ys] H; simpl in *;
    try reflexivity; try discriminate.
  f_equal. apply IH. lia.
Qed.

(** The cell of each polaroid, in drawing order, for any list of items. *)
Lemma plan_cells (br : Album.Browser) (items : list (string * Album.Image)) :
  map (fun p => (Album.decade p, Album.row p, Album.col p)) (Album.plan br items)
  = rev (Album.mapi_from
           (fun decade index => (decade, index / Album.grid_cols, index mod Album.grid_cols))
           0 (map fst items)).
Proof.
  unfold Album.plan. rewrite map_mapi_from, mapi_from_map.
  rewrite <- (mapi_from_rev
                (fun item index =>
                   (fst item, index / Album.grid_cols, index mod Album.grid_cols)) items).
  apply mapi_from_ext. intros [d i] j _. reflexivity.
Qed.

Lemma plan_Forall (br : Album.Browser) (items : list (string * Album.Image)) :
  forall P : Album.Polaroid -> Prop,
    (forall item reversedIndex,
        P (Album.place (length items) (Album.random br reversedIndex) item reversedIndex)) ->
    Forall P (Album.plan br items).
Proof.
  intros P H. unfold Album.plan. now apply Forall_mapi_from.
Qed.

#[local] Set Warnings "-inexact-float".

Lemma marks_app (xs ys : list Album.CanvasOp) : marks (xs ++ ys) = marks xs ++ marks ys.
Proof. unfold marks. apply flat_map_app. Qed.

Lemma marks_flat_map {A : Type} (f : A -> list Album.CanvasOp) (l : list A) :
  marks (flat_map f l) = flat_map (fun a => marks (f a)) l.
Proof.
  induction l as [|a l IH]; simpl; [reflexivity|]. now rewrite marks_app, IH.
Qed.

Lemma flat_map_mapi_from {A B C : Type} (h : B -> list C) (f : A -> nat -> B) (i : nat)
    (xs : list A) :
  flat_map h (Album.mapi_from f i xs) = concat (Album.mapi_from (fun a j => h (f a j)) i xs).
Proof.
  revert i. induction xs as [|a xs IH]; intros i; simpl; [reflexivity|]. now rewrite IH.
Qed.

(** What the code paints is the page as specified. *)
Lemma marks_of_page (br : Album.Browser) (items : list (string * Album.Image)) :
  marks (Album.header_ops ++ flat_map Album.paint (Album.plan br items))
  = page_as_specified items.
Proof.
  rewrite marks_app, marks_flat_map. unfold page_as_specified. f_equal.
  unfold Album.plan. rewrite flat_map_mapi_from, <- mapi_from_rev. f_equal.
  apply mapi_from_ext. intros [d i] j _. reflexivity.
Qed.

(** The card of each of the six cells lies inside its cell. *)
Lemma card_in_cell (index : nat) :
  index < 6 ->
  let cx := (cell_x (index mod 2) + Album.polaroidWidth / 2)%float in
  let cy := (cell_y (index / 2) + Album.polaroidHeight / 2)%float in
  (cell_left (index mod 2) <=? cx + - Album.polaroidWidth / 2)%float = true /\
  (cx + - Album.polaroidWidth / 2 + Album.polaroidWidth
   <=? cell_left (index mod 2) + Album.cellWidth)%float = true /\
  (cell_top (index / 2) <=? cy + - Album.polaroidHeight / 2)%float = true /\
  (cy + - Album.polaroidHeight / 2 + Album.polaroidHeight
   <=? cell_top (index / 2) + Album.cellHeight)%float = true.
Proof.
  intros H. do 6 (destruct index as [|index]; [repeat split; vm_compute; reflexivity|]).
  lia.
Qed.

(** C8.  When the page is produced, what is encoded is the canvas on which
    the code has painted the background, the two title lines and then the
    cards in reverse enumeration order of the input mapping (last grid
    position first, so an earlier item is painted after, hence over, a
    later one).  The card of the item at position [index] is the card
    rectangle centred in the cell of row [index / 2], column
    [index mod 2], then its photo, then its label; for the six positions
    of the 2 by 3 grid that rectangle lies inside its cell.  The columns
    are 0 and 1, and the rows 0 to 2 when there are at most six items. *)
Theorem album_grid_order (br : Album.Browser) (imageData : JsObject.t string)
    (loadedImages : list Album.Image) :
  Album.getContext2d br = true ->
  Album.Promise_all (map (Album.loadImage br) (JsObject.values imageData))
    = inr loadedImages ->
  let items := combine (JsObject.keys imageData) loadedImages in
  Album.createAlbumPage br imageData
    = inr (Album.toDataURL br
             (Album.header_ops ++ flat_map Album.paint (Album.plan br items))) /\
  marks (Album.header_ops ++ flat_map Album.paint (Album.plan br items))
    = [ Frame 0%float 0%float 2480%float 3508%float;
        Caption "Generated with Past Forward";
        Caption "on Google AI Studio" ]
      ++ concat (rev (Album.mapi_from
           (fun item index =>
              [ MoveTo (cell_x (index mod 2) + Album.polaroidWidth / 2)%float
                       (cell_y (index / 2) + Album.polaroidHeight / 2)%float;
                Frame (- Album.polaroidWidth / 2)%float (- Album.polaroidHeight / 2)%float
                      Album.polaroidWidth Album.polaroidHeight;
                Photo (snd item);
                Caption (fst item) ])
           0 items)) /\
  map fst items = JsObject.keys imageData /\
  (forall index, index < 6 ->
     let cx := (cell_x (index mod 2) + Album.polaroidWidth / 2)%float in
     let cy := (cell_y (index / 2) + Album.polaroidHeight / 2)%float in
     (cell_left (index mod 2) <=? cx + - Album.polaroidWidth / 2)%float = true /\
     (cx + - Album.polaroidWidth / 2 + Album.polaroidWidth
      <=? cell_left (index mod 2) + Album.cellWidth)%float = true /\
     (cell_top (index / 2) <=? cy + - Album.polaroidHeight / 2)%float = true /\
     (cy + - Album.polaroidHeight / 2 + Album.polaroidHeight
      <=? cell_top (index / 2) + Album.cellHeight)%float = true) /\
  map (fun p => (Album.decade p, Album.row p, Album.col p)) (Album.plan br items)
    = rev (Album.mapi_from (fun decade index => (decade, index / 2, index mod 2))
             0 (JsObject.keys imageData)) /\
  Forall (fun p => Album.col p < 2 /\
                   (length (JsObject.keys imageData) <= 6 -> Album.row p < 3))
         (Album.plan br items).
Proof.
  intros Hctx Hall items.
  assert (Hlen : length loadedImages = length (JsObject.keys imageData)).
  { rewrite (Promise_all_length _ _ Hall). unfold JsObject.keys, JsObject.values.
    now rewrite !length_map. }
  split; [|split; [|split; [|split; [|split]]]].
  - unfold Album.createAlbumPage. now rewrite Hctx, Hall.
  - exact (marks_of_page br items).
  - unfold items. now apply map_fst_combine.
  - exact card_in_cell.
  - rewrite plan_cells. unfold items. now rewrite map_fst_combine.
  - apply plan_Forall. intros [d i] j. unfold Album.place. cbn [Album.col Album.row].
    split.
    + apply Nat.mod_upper_bound. discriminate.
    + intros Hsix. apply Nat.Div0.div_lt_upper_bound.
      unfold items. rewrite length_combine. unfold Album.grid_cols. lia.
Qed.

Lemma album_grid_order_witness :
  let br := Album.mkBrowser true
              (fun u => Some (Album.mkImg u 1024%float 1024%float))
              (fun _ => 0.5%float)
              (fun _ => "data:image/jpeg;base64,album") in
  let imageData := [("1950s", "data:a"); ("1960s", "data:b"); ("1970s", "data:c");
                    ("1980s", "data:d"); ("1990s", "data:e"); ("2000s", "data:f")] in
  let loadedImages := map (fun u => Album.mkImg u 1024%float 1024%float)
                          (JsObject.values imageData) in
  let photo := fun u => Photo (Album.mkImg u 1024%float 1024%float) in
  let frame := Frame (-351)%float (-421.19999999999999)%float
                     702%float 842.39999999999998%float in
  Album.Promise_all (map (Album.loadImage br) (JsObject.values imageData))
    = inr loadedImages /\
  marks (Album.header_ops
         ++ flat_map Album.paint
              (Album.plan br (combine (JsObject.keys imageData) loadedImages)))
  = [ Frame 0%float 0%float 2480%float 3508%float;
      Caption "Generated with Past Forward"; Caption "on Google AI Studio";
      MoveTo 1835%float 2940%float; frame; photo "data:f"; Caption "2000s";
      MoveTo 645%float 2940%float; frame; photo "data:e"; Caption "1990s";
      MoveTo 1835%float 1904%float; frame; photo "data:d"; Caption "1980s";
      MoveTo 645%float 1904%float; frame; photo "data:c"; Caption "1970s";
      MoveTo 1835%float 868%float; frame; photo "data:b"; Caption "1960s";
      MoveTo 645%float 868%float; frame; photo "data:a"; Caption "1950s" ] /\
  map (fun p => (Album.decade p, Album.row p, Album.col p))
      (Album.plan br (combine (JsObject.keys imageData) loadedImages))
  = [("2000s", 2, 1); ("1990s", 2, 0); ("1980s", 1, 1);
     ("1970s", 1, 0); ("1960s", 0, 1); ("1950s", 0, 0)].
Proof.
  intros br imageData loadedImages photo frame.
  assert (Hall : Album.Promise_all (map (Album.loadImage br) (JsObject.values imageData))
                 = inr loadedImages) by reflexivity.
  split; [exact Hall|].
  destruct (album_grid_order br imageData loadedImages eq_refl Hall)
    as (_ & Hmarks & _ & _ & Hcells & _).
  split.
  - rewrite Hmarks. vm_compute. reflexivity.
  - rewrite Hcells. reflexivity.
Defined.

(** The card is sized once, outside the loop: every polaroid of the plan
    has that size. *)
Lemma plan_size (br : Album.Browser) (items : list (string * Album.Image)) :
  Forall (fun p => Album.width p = Album.polaroidWidth /\
                   Album.height p = Album.polaroidHeight)
         (Album.plan br items).
Proof.
  apply plan_Forall. intros [d i] j. split; reflexivity.
Qed.

#[local] Set Warnings "-inexact-float".

(** C9.  With the canvas of 2480 by 3508, the top margin of 300, the
    padding of 100 and the grid of 2 by 3, a cell is 1090 wide and 936
    high, and every polaroid of the plan has, in the arithmetic of the
    program (binary64): height = 1.2 * width, width <= 0.9 * cellWidth and
    height <= 0.9 * cellHeight. *)
Theorem polaroid_fits_cell (br : Album.Browser) (items : list (string * Album.Image)) :
  Album.cellWidth = 1090%float /\
  Album.cellHeight = 936%float /\
  Forall (fun p =>
            (1.2 * Album.width p)%float = Album.height p /\
            (Album.width p <=? 0.9 * Album.cellWidth)%float = true /\
            (Album.height p <=? 0.9 * Album.cellHeight)%float = true)
         (Album.plan br items).
Proof.
  split; [vm_compute; reflexivity|]. split; [vm_compute; reflexivity|].
  eapply Forall_impl; [|apply plan_size].
  intros p [-> ->]. repeat split; vm_compute; reflexivity.
Qed.

(** ** The worker pool *)

Lemma DECADES_truthy : Forall (fun decade => truthy decade = true) DECADES.
Proof. repeat constructor. Qed.

Lemma DECADES_NoDup : NoDup DECADES.
Proof.
  unfold DECADES.
  repeat (constructor; [simpl; intuition discriminate|]).
  constructor.
Qed.

(** On a queue of truthy labels the loop takes exactly the head. *)
Lemma worker_loop_truthy (queue : list string) :
  Forall (fun decade => truthy decade = true) queue ->
  worker_loop queue = match queue with
                      | [] => (None, [])
                      | decade :: queue' => (Some decade, queue')
                      end.
Proof.
  intros H. destruct H as [|d q Hd _]; simpl; [reflexivity|]. now rewrite Hd.
Qed.

Lemma length_update_nth {A : Type} (i : nat) (v : A) (xs : list A) :
  length (update_nth i v xs) = length xs.
Proof.
  revert i. induction xs as [|a xs IH]; intros [|i]; simpl; auto.
Qed.

Lemma nth_error_update_nth {A : Type} (i : nat) (v a : A) (xs : list A) :
  nth_error xs i = Some a -> nth_error (update_nth i v xs) i = Some v.
Proof.
  revert i. induction xs as [|x xs IH]; intros [|i] H; simpl in *;
    try discriminate; auto.
Qed.

Lemma Forall_update_nth {A : Type} (P : A -> Prop) (i : nat) (v : A) (xs : list A) :
  Forall P xs -> P v -> Forall P (update_nth i v xs).
Proof.
  intros H Hv. revert i. induction H as [|x xs Hx Hxs IH]; intros [|i]; simpl;
    try constructor; auto.
Qed.

Lemma length_awaiting (ws : list Worker) : length (awaiting ws) <= length ws.
Proof.
  induction ws as [|[d|] ws IH]; simpl; lia.
Qed.

(** Taking worker [wi] out of the calls in flight. *)
Lemma awaiting_take (ws : list Worker) (wi : nat) (decade : string) :
  nth_error ws wi = Some (Awaiting decade) ->
  Permutation (awaiting ws) (decade :: awaiting (update_nth wi Returned ws)).
Proof.
  revert wi. induction ws as [|wk ws IH]; intros [|wi] H; simpl in *; try discriminate.
  - injection H as ->. reflexivity.
  - destruct wk as [d0|]; simpl.
    + rewrite (IH wi H). apply perm_swap.
    + exact (IH wi H).
Qed.

(** Putting worker [wi] on a new call. *)
Lemma awaiting_put (ws : list Worker) (wi : nat) (wk : Worker) (decade : string) :
  nth_error ws wi = Some wk ->
  Permutation (awaiting (update_nth wi (Awaiting decade) ws))
              (decade :: awaiting (update_nth wi Returned ws)).
Proof.
  revert wi. induction ws as [|wk0 ws IH]; intros [|wi] H; simpl in *; try discriminate.
  - reflexivity.
  - destruct wk0 as [d0|]; simpl.
    + rewrite (IH wi H). apply perm_swap.
    + exact (IH wi H).
Qed.

Lemma Returned_update_nth (ws : list Worker) (wi : nat) (decade : string) :
  In Returned (update_nth wi (Awaiting decade) ws) -> In Returned ws.
Proof.
  revert wi. induction ws as [|wk ws IH]; intros [|wi]; simpl; auto.
  - intros [H|H]; [discriminate|auto].
  - intros [H|H]; eauto.
Qed.

Lemma batch_queue_truthy (b : Batch) :
  batch_ok b -> Forall (fun decade => truthy decade = true) (decadesQueue b).
Proof.
  intros Hok. pose proof DECADES_truthy as H. rewrite <- (ok_fifo b Hok) in H.
  now apply Forall_app in H.
Qed.

Lemma batch_after_ok (wi : nat) (decade : string) (b : Batch) :
  batch_ok b -> nth_error (workers b) wi = Some (Awaiting decade) ->
  batch_ok (batch_after wi decade b).
Proof.
  intros Hok Hw. destruct Hok as [Hfifo Hpool Hact Hdr]. unfold batch_after.
  destruct (decadesQueue b) as [|next queue'] eqn:Hq; constructor; simpl.
  - exact Hfifo.
  - now rewrite length_update_nth.
  - rewrite Hact, (awaiting_take _ _ _ Hw), <- app_assoc. reflexivity.
  - reflexivity.
  - now rewrite <- app_assoc.
  - now rewrite length_update_nth.
  - rewrite (awaiting_put _ _ _ next Hw).
    rewrite <- (Permutation_middle (written b ++ [decade]) _ next).
    rewrite <- (Permutation_cons_append (popped b) next).
    apply perm_skip.
    rewrite Hact, (awaiting_take _ _ _ Hw), <- app_assoc. reflexivity.
  - intros H. apply Returned_update_nth in H. specialize (Hdr H). discriminate.
Qed.

Lemma fresh_batch_ok (image : string) : batch_ok (fresh_batch image).
Proof.
  constructor; simpl; try reflexivity.
  intros [H|[H|[]]]; discriminate H.
Qed.

(** The click past its guard: the store is all pending, and one batch is
    added whose two workers wait for the first two decades. *)
Lemma handleGenerateClick_started (w : World) (image : string) :
  uploadedImage w = Some image -> truthy image = true ->
  batches (handleGenerateClick w) = batches w ++ [fresh_batch image] /\
  generatedImages (handleGenerateClick w) = initialImages /\
  requests (handleGenerateClick w)
    = (image, prompt_of "1960s") :: (image, prompt_of "1950s") :: requests w.
Proof.
  intros Hup Htr. unfold handleGenerateClick. rewrite Hup, Htr.
  repeat split.
Qed.

Lemma processDecade_settled_inv (w w' : World) (bi wi : nat) (s : Settlement) (b : Batch) :
  nth_error (batches w) bi = Some b -> batch_ok b ->
  processDecade_settled bi wi s w = Some w' ->
  exists decade,
    nth_error (workers b) wi = Some (Awaiting decade) /\
    batches w' = update_nth bi (batch_after wi decade b) (batches w) /\
    generatedImages w' = JsObject.set decade (settled_image s) (generatedImages w) /\
    (finished (batch_after wi decade b) = true ->
     isLoading w' = false /\ appState w' = results_shown).
Proof.
  intros Hb Hok Hstep. unfold processDecade_settled in Hstep. rewrite Hb in Hstep.
  destruct (nth_error (workers b) wi) as [[decade|]|]; try discriminate.
  exists decade. split; [reflexivity|].
  unfold worker_run in Hstep. cbn [decadesQueue] in Hstep.
  rewrite (worker_loop_truthy _ (batch_queue_truthy b Hok)) in Hstep.
  unfold batch_after, finished.
  destruct (decadesQueue b) as [|next queue']; injection Hstep as <-;
    unfold join, finished; cbn [workers];
    match goal with |- context [forallb is_returned ?ws] =>
      destruct (forallb is_returned ws) end;
    destruct s; repeat split; discriminate.
Qed.

Lemma step_batches_ok (w w' : World) (e : Event) :
  Forall batch_ok (batches w) -> step w e = Some w' -> Forall batch_ok (batches w').
Proof.
  intros Hall Hstep. destruct e; simpl in Hstep.
  - injection Hstep as <-. exact Hall.
  - injection Hstep as <-.
    destruct (uploadedImage w) as [image|] eqn:Hup;
      [|unfold handleGenerateClick; now rewrite Hup].
    destruct (truthy image) eqn:Htr;
      [|unfold handleGenerateClick; now rewrite Hup, Htr].
    destruct (handleGenerateClick_started w image Hup Htr) as (-> & _).
    apply Forall_app. split; [exact Hall|]. repeat constructor. apply fresh_batch_ok.
  - injection Hstep as <-. unfold handleRegenerateDecade.
    destruct (uploadedImage w) as [image|]; [|exact Hall].
    destruct (truthy image); [|exact Hall]. simpl.
    destruct (is_pending decade (generatedImages w)); exact Hall.
  - injection Hstep as <-. exact Hall.
  - injection Hstep as <-. unfold handleDownloadIndividualImage.
    destruct (JsObject.get decade (generatedImages w)) as [[st [u|] er]|]; try exact Hall.
    destruct (is_done_with_url _); exact Hall.
  - injection Hstep as <-. unfold handleDownloadAlbum.
    destruct (Nat.ltb _ _); exact Hall.
  - destruct (nth_error (batches w) bi) as [b|] eqn:Hb;
      [|unfold processDecade_settled in Hstep; rewrite Hb in Hstep; discriminate].
    assert (Hok : batch_ok b).
    { rewrite Forall_forall in Hall. apply Hall. eapply nth_error_In, Hb. }
    destruct (processDecade_settled_inv _ _ _ _ _ _ Hb Hok Hstep) as (d & Hw & -> & _).
    apply Forall_update_nth; [exact Hall|]. now apply batch_after_ok.
  - unfold handleRegenerateDecade_settled in Hstep.
    destruct (nth_error (regens w) ri) as [[image decade [|]]|]; try discriminate.
    injection Hstep as <-. destruct s; exact Hall.
  - unfold handleDownloadAlbum_settled in Hstep.
    destruct (nth_error (albums w) ai) as [[imageData [|]]|]; try discriminate.
    injection Hstep as <-. destruct (Album.createAlbumPage br imageData); exact Hall.
Qed.

Lemma run_batches_ok (es : list Event) (w w' : World) :
  Forall batch_ok (batches w) -> run w es = Some w' -> Forall batch_ok (batches w').
Proof.
  revert w. induction es as [|e es IH]; intros w Hall Hrun; simpl in Hrun.
  - now injection Hrun as <-.
  - destruct (step w e) as [w1|] eqn:Hstep; [|discriminate].
    eapply IH; [|exact Hrun]. eapply step_batches_ok; eassumption.
Qed.

Lemma reachable_batches_ok (w : World) :
  reachable w -> Forall batch_ok (batches w).
Proof.
  intros (es & Hrun). eapply run_batches_ok; [|exact Hrun]. constructor.
Qed.

(** C3.  In every reachable world and for every batch in it: at most two
    decades are in flight (popped from the queue and not yet written), one
    per worker; the decades popped so far are the written ones and those in
    flight; they are the first ones of DECADES in order, without
    repetition, so no decade is handed to two workers; and when both
    workers have returned, the decades popped are exactly DECADES, each of
    the six once. *)
Theorem batch_pool_bound (w : World) (b : Batch) :
  reachable w -> In b (batches w) ->
  length (awaiting (workers b)) <= 2 /\
  Permutation (popped b) (written b ++ awaiting (workers b)) /\
  popped b ++ decadesQueue b = DECADES /\
  NoDup (popped b) /\
  (finished b = true ->
   popped b = DECADES /\
   forall decade, In decade DECADES -> count_occ string_dec (popped b) decade = 1).
Proof.
  intros Hreach Hin.
  pose proof (reachable_batches_ok w Hreach) as Hall.
  rewrite Forall_forall in Hall. destruct (Hall b Hin) as [Hfifo Hpool Hact Hdr].
  assert (Hnd : NoDup (popped b)).
  { pose proof DECADES_NoDup as H. rewrite <- Hfifo in H.
    now apply NoDup_app_remove_r in H. }
  split; [pose proof (length_awaiting (workers b)); unfold concurrencyLimit in Hpool; lia|].
  split; [exact Hact|]. split; [exact Hfifo|]. split; [exact Hnd|].
  intros Hfin.
  assert (Hall_popped : popped b = DECADES).
  { rewrite <- Hfifo, Hdr, app_nil_r; [reflexivity|].
    unfold finished in Hfin. destruct (workers b) as [|[d|] ws]; simpl in *;
      try discriminate. now left. }
  split; [exact Hall_popped|].
  intros decade Hd. rewrite <- Hall_popped in Hd.
  now apply (proj1 (NoDup_count_occ' string_dec (popped b)) Hnd).
Qed.

Lemma batch_pool_bound_witness :
  let es := [ImageLoaded (Some "data:image/png;base64,AA"); GenerateClick;
             DecadeSettled 0 1 (Fulfilled "data:b");
             DecadeSettled 0 1 (Rejected (ErrorObject "timeout"))] in
  let b := mkBatch "data:image/png;base64,AA" ["1990s"; "2000s"]
             [Awaiting "1950s"; Awaiting "1980s"]
             ["1950s"; "1960s"; "1970s"; "1980s"] ["1960s"; "1970s"] in
  exists w, run initial es = Some w /\ In b (batches w) /\
            length (awaiting (workers b)) <= 2 /\ NoDup (popped b).
Proof.
  intros es b.
  pose (w := match run initial es with Some w => w | None => initial end).
  assert (Hrun : run initial es = Some w) by (vm_compute; reflexivity).
  assert (Hin : In b (batches w)) by (vm_compute; left; reflexivity).
  clearbody w.
  destruct (batch_pool_bound w b (ex_intro _ es Hrun) Hin) as (Hle & _ & _ & Hnd & _).
  exists w. exact (conj Hrun (conj Hin (conj Hle Hnd))).
Defined.

Lemma terminal_settled (decade : string) (s : Settlement) (g : Store) :
  terminal decade (JsObject.set decade (settled_image s) g).
Proof.
  unfold terminal. rewrite get_set_same. destruct s; simpl; eauto.
Qed.

Lemma terminal_set_other (d decade : string) (image : GeneratedImage) (g : Store) :
  d <> decade -> terminal d g -> terminal d (JsObject.set decade image g).
Proof.
  intros Hne. unfold terminal. now rewrite get_set_other.
Qed.

Lemma written_batch_after (wi : nat) (decade : string) (b : Batch) :
  written (batch_after wi decade b) = written b ++ [decade].
Proof. unfold batch_after. now destruct (decadesQueue b). Qed.

Lemma progress_start (w : World) (image : string) :
  uploadedImage w = Some image -> truthy image = true ->
  batch_progress (length (batches w)) 0 (handleGenerateClick w).
Proof.
  intros Hup Htr.
  destruct (handleGenerateClick_started w image Hup Htr) as (Hb & Hg & _).
  exists (fresh_batch image). rewrite Hb, Hg.
  split; [rewrite nth_error_app2, Nat.sub_diag; [reflexivity | lia]|].
  split; [apply fresh_batch_ok|]. split; [reflexivity|].
  split; [intros d []|]. split; [|discriminate].
  intros d Hd _. unfold DECADES in Hd. simpl in Hd.
  repeat destruct Hd as [<-|Hd]; try reflexivity. contradiction.
Qed.

Lemma progress_step (bi wi k : nat) (s : Settlement) (w w' : World) :
  batch_progress bi k w ->
  step w (DecadeSettled bi wi s) = Some w' ->
  batch_progress bi (S k) w'.
Proof.
  intros (b & Hb & Hok & Hk & Hterm & Hpend & _) Hstep. simpl in Hstep.
  destruct (processDecade_settled_inv _ _ _ _ _ _ Hb Hok Hstep)
    as (decade & Hw & Hbs & Hg & Hfin).
  exists (batch_after wi decade b). rewrite Hbs, Hg, written_batch_after.
  split; [eapply nth_error_update_nth; exact Hb|].
  split; [now apply batch_after_ok|].
  split; [rewrite length_app; simpl; lia|].
  split; [|split; [|exact Hfin]].
  - intros d Hd. destruct (string_dec d decade) as [->|Hne].
    + apply terminal_settled.
    + apply terminal_set_other; [exact Hne|]. apply Hterm.
      apply in_app_or in Hd. destruct Hd as [Hd|[Hd|[]]]; congruence.
  - intros d Hd Hnw. rewrite get_set_other.
    + apply Hpend; [exact Hd|]. intros Hin. apply Hnw, in_or_app. now left.
    + intros ->. apply Hnw, in_or_app. right. now left.
Qed.

Lemma progress_run (bi : nat) (ss : list (nat * Settlement)) (k : nat) (w w' : World) :
  batch_progress bi k w ->
  run w (settlements bi ss) = Some w' ->
  batch_progress bi (k + length ss) w'.
Proof.
  revert k w. induction ss as [|[wi s] ss IH]; intros k w Hp Hrun; simpl in Hrun.
  - injection Hrun as <-. now rewrite Nat.add_0_r.
  - destruct (processDecade_settled bi wi s w) as [w1|] eqn:Hstep; [|discriminate].
    simpl. rewrite Nat.add_succ_r. apply (IH (S k) w1); [|exact Hrun].
    eapply progress_step; [exact Hp | exact Hstep].
Qed.

Lemma awaiting_nil (ws : list Worker) :
  awaiting ws = [] -> forallb is_returned ws = true.
Proof.
  induction ws as [|[d|] ws IH]; simpl; auto. discriminate.
Qed.

Lemma awaiting_nth (ws : list Worker) :
  awaiting ws <> [] -> exists wi decade, nth_error ws wi = Some (Awaiting decade).
Proof.
  induction ws as [|[d|] ws IH]; simpl; intros H.
  - congruence.
  - now exists 0, d.
  - destruct (IH H) as (wi & decade & Hn). now exists (S wi), decade.
Qed.

(** The counting behind the progress of a batch. *)
Lemma batch_ok_counts (b : Batch) :
  batch_ok b ->
  length (written b) + length (awaiting (workers b)) + length (decadesQueue b) = 6 /\
  (awaiting (workers b) = [] -> finished b = true /\ decadesQueue b = []).
Proof.
  intros [Hfifo Hpool Hact Hdr]. split.
  - apply Permutation_length in Hact. rewrite length_app in Hact.
    apply (f_equal (@length string)) in Hfifo. rewrite length_app in Hfifo.
    simpl in Hfifo. lia.
  - intros Hnil. pose proof (awaiting_nil _ Hnil) as Hfin. split; [exact Hfin|].
    apply Hdr. destruct (workers b) as [|[d|] ws]; simpl in *; try discriminate.
    now left.
Qed.

(** Every field of the world after the settlement of a batch call. *)
Lemma processDecade_settled_fields (w w' : World) (bi wi : nat) (s : Settlement) (b : Batch) :
  nth_error (batches w) bi = Some b -> batch_ok b ->
  processDecade_settled bi wi s w = Some w' ->
  exists decade,
    nth_error (workers b) wi = Some (Awaiting decade) /\
    batches w' = update_nth bi (batch_after wi decade b) (batches w) /\
    generatedImages w' = JsObject.set decade (settled_image s) (generatedImages w) /\
    requests w' = match decadesQueue b with
                  | [] => requests w
                  | next :: _ => (b_image b, prompt_of next) :: requests w
                  end /\
    isLoading w' = (if finished (batch_after wi decade b) then false else isLoading w) /\
    appState w' = (if finished (batch_after wi decade b) then results_shown else appState w) /\
    regens w' = regens w /\ uploadedImage w' = uploadedImage w /\
    albums w' = albums w /\ alerts w' = alerts w /\ saved w' = saved w.
Proof.
  intros Hb Hok Hstep. unfold processDecade_settled in Hstep. rewrite Hb in Hstep.
  destruct (nth_error (workers b) wi) as [[decade|]|]; try discriminate.
  exists decade. split; [reflexivity|].
  unfold worker_run in Hstep. cbn [decadesQueue] in Hstep.
  rewrite (worker_loop_truthy _ (batch_queue_truthy b Hok)) in Hstep.
  unfold batch_after, finished.
  destruct (decadesQueue b) as [|next queue']; injection Hstep as <-;
    unfold join, finished; cbn [workers];
    match goal with |- context [forallb is_returned ?ws] =>
      destruct (forallb is_returned ws) end;
    destruct s; repeat split.
Qed.

Lemma awaiting_not_finished (ws : list Worker) (wi : nat) (decade : string) :
  nth_error ws wi = Some (Awaiting decade) -> forallb is_returned ws = false.
Proof.
  revert wi. induction ws as [|wk ws IH]; intros [|wi] H; simpl in *; try discriminate.
  - now injection H as ->.
  - rewrite (IH wi H). apply andb_false_r.
Qed.

Lemma flags_start (w : World) (image : string) :
  uploadedImage w = Some image -> truthy image = true ->
  batch_flags (length (batches w)) (handleGenerateClick w).
Proof.
  intros Hup Htr. exists (fresh_batch image).
  unfold handleGenerateClick. rewrite Hup, Htr.
  split; [simpl; rewrite nth_error_app2, Nat.sub_diag; [reflexivity | lia]|].
  split; [apply fresh_batch_ok|]. split; reflexivity.
Qed.

Lemma flags_step (bi wi : nat) (s : Settlement) (w w' : World) :
  batch_flags bi w ->
  step w (DecadeSettled bi wi s) = Some w' ->
  batch_flags bi w'.
Proof.
  intros (b & Hb & Hok & Hflags) Hstep. simpl in Hstep.
  destruct (processDecade_settled_fields _ _ _ _ _ _ Hb Hok Hstep)
    as (decade & Hw & Hbs & _ & _ & Hl & Ha & _).
  rewrite (awaiting_not_finished _ _ _ Hw : finished b = false) in Hflags.
  destruct Hflags as (Hl0 & Ha0).
  exists (batch_after wi decade b). rewrite Hbs.
  split; [eapply nth_error_update_nth; exact Hb|].
  split; [now apply batch_after_ok|].
  rewrite Hl, Ha, Hl0, Ha0. destruct (finished (batch_after wi decade b)); split; reflexivity.
Qed.

Lemma flags_run (bi : nat) (ss : list (nat * Settlement)) (w w' : World) :
  batch_flags bi w ->
  run w (settlements bi ss) = Some w' ->
  batch_flags bi w'.
Proof.
  revert w. induction ss as [|[wi s] ss IH]; intros w Hf Hrun; simpl in Hrun.
  - now injection Hrun as <-.
  - destruct (processDecade_settled bi wi s w) as [w1|] eqn:Hstep; [|discriminate].
    apply (IH w1); [|exact Hrun]. eapply flags_step; [exact Hf | exact Hstep].
Qed.

(** A terminal entry, field by field. *)
Lemma terminal_fields (decade : string) (g : Store) :
  terminal decade g ->
  exists entry,
    JsObject.get decade g = Some entry /\
    ((status entry = st_done /\ (exists resultUrl, url entry = Some resultUrl) /\
      error entry = None) \/
     (status entry = st_error /\ (exists message, error entry = Some message) /\
      url entry = None)).
Proof.
  intros [(u & H)|(m & H)]; eexists; (split; [exact H|]); [left|right];
    simpl; eauto.
Qed.

(** C2.  Right after the click every one of the six decades reads
    [{ status: 'pending' }], the loading flag is on and the app state is
    'generating'.  Let the calls of the batch settle, in any order across
    the two workers and each with any outcome, no other handler running in
    between (a regeneration or a reset is the user's doing, not the
    batch's).  There are never more than six settlements.  Before the
    sixth, the run has not finished: some worker has not returned, the
    loading flag is on and the app state is 'generating'; a worker is
    waiting and its call can settle either way, which writes
    [{ status: 'done', url }] for a result and [{ status: 'error', error }]
    for a failure, with the message of the [Error] or the fallback text.
    After the sixth, both workers have returned, [Promise.all] has
    returned (loading flag off, results shown) and the entry of every
    decade is done with a url and no error, or error with a message and no
    url.  A rejection is one of the outcomes, so a failed item stops
    nothing. *)
Theorem batch_reaches_terminal (w : World) (image : string) :
  uploadedImage w = Some image -> truthy image = true ->
  let w0 := handleGenerateClick w in
  let bi := length (batches w) in
  (forall d, In d DECADES ->
     JsObject.get d (generatedImages w0) = Some (mkImage st_pending None None)) /\
  isLoading w0 = true /\ appState w0 = generating /\
  forall ss w',
    run w0 (settlements bi ss) = Some w' ->
    length ss <= 6 /\
    (length ss < 6 ->
     (exists b, nth_error (batches w') bi = Some b /\ finished b = false) /\
     isLoading w' = true /\ appState w' = generating /\
     exists wi decade,
       in_flight w' bi wi decade /\
       (forall resultUrl, exists w'',
          step w' (DecadeSettled bi wi (Fulfilled resultUrl)) = Some w'' /\
          JsObject.get decade (generatedImages w'')
          = Some (mkImage st_done (Some resultUrl) None)) /\
       (forall err, exists w'',
          step w' (DecadeSettled bi wi (Rejected err)) = Some w'' /\
          JsObject.get decade (generatedImages w'')
          = Some (mkImage st_error None
                    (Some match err with
                          | ErrorObject message => message
                          | OtherValue => "An unknown error occurred."
                          end)))) /\
    (length ss = 6 ->
     (exists b, nth_error (batches w') bi = Some b /\ finished b = true) /\
     isLoading w' = false /\ appState w' = results_shown /\
     forall d, In d DECADES ->
       exists entry,
         JsObject.get d (generatedImages w') = Some entry /\
         ((status entry = st_done /\ (exists resultUrl, url entry = Some resultUrl) /\
           error entry = None) \/
          (status entry = st_error /\ (exists message, error entry = Some message) /\
           url entry = None))).
Proof.
  intros Hup Htr w0 bi.
  pose proof (progress_start w image Hup Htr) as Hstart. fold w0 bi in Hstart.
  pose proof (flags_start w image Hup Htr) as Hfstart. fold w0 bi in Hfstart.
  split; [|split; [|split]].
  - destruct Hstart as (b & _ & _ & Hk & _ & Hpend & _).
    intros d Hd. apply Hpend; [exact Hd|].
    destruct (written b); [intros [] | discriminate Hk].
  - unfold w0, handleGenerateClick. now rewrite Hup, Htr.
  - unfold w0, handleGenerateClick. now rewrite Hup, Htr.
  - intros ss w' Hrun.
    pose proof (progress_run bi ss 0 w0 w' Hstart Hrun) as Hp. simpl in Hp.
    destruct Hp as (b & Hb & Hok & Hk & Hterm & Hpend & Hfin).
    destruct (flags_run bi ss w0 w' Hfstart Hrun) as (b' & Hb' & _ & Hflags).
    rewrite Hb in Hb'. injection Hb' as <-.
    destruct (batch_ok_counts b Hok) as (Hcount & Hidle).
    split; [lia|]. split.
    + intros Hlt.
      destruct (awaiting_nth (workers b)) as (wi & decade & Hw).
      { intros Hnil. destruct (Hidle Hnil) as (_ & Hq).
        rewrite Hnil, Hq in Hcount. simpl in Hcount. lia. }
      assert (Hrunning : finished b = false) by (eapply awaiting_not_finished; exact Hw).
      rewrite Hrunning in Hflags. destruct Hflags as (Hl & Ha).
      split; [exists b; auto|]. split; [exact Hl|]. split; [exact Ha|].
      exists wi, decade.
      assert (Hfl : in_flight w' bi wi decade) by (exists b; auto).
      split; [exact Hfl|]. split.
      * intros resultUrl.
        destruct (processDecade_settled_store w' bi wi decade (Fulfilled resultUrl) Hfl)
          as (w'' & Hs & Hg).
        exists w''. split; [exact Hs|]. rewrite Hg. apply get_set_same.
      * intros err.
        destruct (processDecade_settled_store w' bi wi decade (Rejected err) Hfl)
          as (w'' & Hs & Hg).
        exists w''. split; [exact Hs|]. rewrite Hg, get_set_same. now destruct err.
    + intros Hsix.
      assert (Hnil : awaiting (workers b) = []).
      { destruct (awaiting (workers b)); [reflexivity | simpl in Hcount; lia]. }
      destruct (Hidle Hnil) as (Hdone & Hq). destruct (Hfin Hdone) as (Hl & Ha).
      split; [exists b; auto|]. split; [exact Hl|]. split; [exact Ha|].
      intros d Hd. apply terminal_fields, Hterm.
      pose proof (ok_fifo b Hok) as Hfifo. rewrite Hq, app_nil_r in Hfifo.
      pose proof (ok_active b Hok) as Hact. rewrite Hnil, app_nil_r in Hact.
      eapply Permutation_in; [exact Hact|]. now rewrite Hfifo.
Qed.

Lemma batch_reaches_terminal_witness :
  let w := handleImageUpload (Some "data:image/png;base64,AA") initial in
  let ss := [(1, Fulfilled "data:b"); (1, Rejected (ErrorObject "timeout"));
             (0, Fulfilled "data:a"); (0, Fulfilled "data:e");
             (1, Rejected OtherValue); (0, Fulfilled "data:f")] in
  exists w3 w6,
    run (handleGenerateClick w) (settlements (length (batches w)) (firstn 3 ss)) = Some w3 /\
    isLoading w3 = true /\ appState w3 = generating /\
    run (handleGenerateClick w) (settlements (length (batches w)) ss) = Some w6 /\
    isLoading w6 = false /\ appState w6 = results_shown /\
    generatedImages w6
    = [("1950s", mkImage st_done (Some "data:a") None);
       ("1960s", mkImage st_done (Some "data:b") None);
       ("1970s", mkImage st_error None (Some "timeout"));
       ("1980s", mkImage st_error None (Some "An unknown error occurred."));
       ("1990s", mkImage st_done (Some "data:e") None);
       ("2000s", mkImage st_done (Some "data:f") None)] /\
    (forall d, In d DECADES ->
       exists entry, JsObject.get d (generatedImages w6) = Some entry /\
                     (status entry = st_done \/ status entry = st_error)).
Proof.
  intros w ss.
  pose (w3 := match run (handleGenerateClick w)
                      (settlements (length (batches w)) (firstn 3 ss)) with
              | Some x => x | None => initial end).
  pose (w6 := match run (handleGenerateClick w) (settlements (length (batches w)) ss) with
              | Some x => x | None => initial end).
  assert (Hrun3 : run (handleGenerateClick w)
                    (settlements (length (batches w)) (firstn 3 ss)) = Some w3)
    by (vm_compute; reflexivity).
  assert (Hrun6 : run (handleGenerateClick w) (settlements (length (batches w)) ss) = Some w6)
    by (vm_compute; reflexivity).
  assert (Hstore : generatedImages w6
    = [("1950s", mkImage st_done (Some "data:a") None);
       ("1960s", mkImage st_done (Some "data:b") None);
       ("1970s", mkImage st_error None (Some "timeout"));
       ("1980s", mkImage st_error None (Some "An unknown error occurred."));
       ("1990s", mkImage st_done (Some "data:e") None);
       ("2000s", mkImage st_done (Some "data:f") None)]) by (vm_compute; reflexivity).
  clearbody w3 w6.
  destruct (batch_reaches_terminal w "data:image/png;base64,AA" eq_refl eq_refl)
    as (_ & _ & _ & Hall).
  destruct (Hall (firstn 3 ss) w3 Hrun3) as (_ & Hmid & _).
  destruct (Hmid ltac:(simpl; lia)) as (_ & Hl3 & Ha3 & _).
  destruct (Hall ss w6 Hrun6) as (_ & _ & Hsix).
  destruct (Hsix eq_refl) as (_ & Hl6 & Ha6 & Hterm).
  exists w3, w6. split; [exact Hrun3|]. split; [exact Hl3|]. split; [exact Ha3|].
  split; [exact Hrun6|]. split; [exact Hl6|]. split; [exact Ha6|].
  split; [exact Hstore|].
  intros d Hd. destruct (Hterm d Hd) as (entry & Hget & [(Hs & _)|(Hs & _)]);
    exists entry; auto.
Defined.

(** ** The footer *)

Lemma Footer_index_mod (n : nat) : Footer_index n = n mod 6.
Proof.
  unfold Footer_index. induction n as [|n IH]; [reflexivity|].
  change (Nat.iter (S n) Footer_tick 0) with (Footer_tick (Nat.iter n Footer_tick 0)).
  rewrite IH. unfold Footer_tick.
  change (length REMIX_IDEAS) with 6.
  rewrite Nat.Div0.add_mod_idemp_l. f_equal. lia.
Qed.

(** X1.  The footer's index is the number of interval firings modulo six:
    it is always a valid index of REMIX_IDEAS (the text shown is never
    undefined) and the texts repeat with period six. *)
Theorem Footer_cycles (n : nat) :
  Footer_index n = n mod length REMIX_IDEAS /\
  (exists idea, Footer_idea n = Some idea) /\
  Footer_idea (n + length REMIX_IDEAS) = Footer_idea n.
Proof.
  change (length REMIX_IDEAS) with 6. split; [apply Footer_index_mod|]. split.
  - unfold Footer_idea. rewrite Footer_index_mod.
    destruct (nth_error REMIX_IDEAS (n mod 6)) as [idea|] eqn:E; [eauto|].
    apply nth_error_None in E. change (length REMIX_IDEAS) with 6 in E.
    pose proof (Nat.mod_upper_bound n 6). lia.
  - unfold Footer_idea. rewrite !Footer_index_mod.
    rewrite <- (Nat.Div0.add_mod_idemp_r n 6 6). now rewrite Nat.Div0.mod_same, Nat.add_0_r.
Qed.

(** ** The keys of the store *)

Section KeyFacts.

Context {A : Type}.
Implicit Types (o : JsObject.t A) (k : string) (v : A).

Lemma keys_set_in o k v :
  In k (JsObject.keys o) -> JsObject.keys (JsObject.set k v o) = JsObject.keys o.
Proof.
  unfold JsObject.keys. induction o as [|[k' v'] o IH]; simpl; [contradiction|].
  intros Hin. destruct (String.eqb k' k) eqn:E; simpl; [reflexivity|].
  f_equal. apply IH. destruct Hin as [->|Hin]; [|exact Hin].
  rewrite String.eqb_refl in E. discriminate.
Qed.

Lemma keys_set_notin o k v :
  ~ In k (JsObject.keys o) -> JsObject.keys (JsObject.set k v o) = JsObject.keys o ++ [k].
Proof.
  unfold JsObject.keys. induction o as [|[k' v'] o IH]; simpl; [reflexivity|].
  intros Hnot. destruct (String.eqb k' k) eqn:E; simpl.
  - apply String.eqb_eq in E. subst. exfalso. apply Hnot. now left.
  - f_equal. apply IH. intros Hin. apply Hnot. now right.
Qed.

Lemma NoDup_keys_set o k v :
  NoDup (JsObject.keys o) -> NoDup (JsObject.keys (JsObject.set k v o)).
Proof.
  intros Hnd. destruct (in_dec string_dec k (JsObject.keys o)) as [Hin|Hnot].
  - now rewrite keys_set_in.
  - rewrite keys_set_notin by exact Hnot.
    apply NoDup_app; [exact Hnd | repeat constructor; intros [] |].
    intros x Hx [<-|[]]. contradiction.
Qed.

Lemma incl_keys_set o k v (allowed : list string) :
  incl (JsObject.keys o) allowed -> In k allowed ->
  incl (JsObject.keys (JsObject.set k v o)) allowed.
Proof.
  intros Hincl Hk. destruct (in_dec string_dec k (JsObject.keys o)) as [Hin|Hnot].
  - now rewrite keys_set_in.
  - rewrite keys_set_notin by exact Hnot. apply incl_app; [exact Hincl|].
    intros x [<-|[]]. exact Hk.
Qed.

End KeyFacts.

Lemma store_of_decades_set (g : Store) (decade : string) (image : GeneratedImage) :
  store_of_decades g -> In decade DECADES ->
  store_of_decades (JsObject.set decade image g).
Proof.
  intros [Hnd Hincl] Hd. split; [now apply NoDup_keys_set | now apply incl_keys_set].
Qed.

Lemma store_of_decades_empty : store_of_decades JsObject.empty.
Proof. split; [constructor | intros x []]. Qed.

Lemma store_of_decades_initial : store_of_decades initialImages.
Proof. split; [exact DECADES_NoDup | apply incl_refl]. Qed.

Lemma awaiting_In (ws : list Worker) (wi : nat) (decade : string) :
  nth_error ws wi = Some (Awaiting decade) -> In decade (awaiting ws).
Proof.
  intros H. apply (Permutation_in decade (Permutation_sym (awaiting_take ws wi decade H))).
  now left.
Qed.

(** A decade in flight in a batch is one of DECADES. *)
Lemma batch_awaiting_decade (b : Batch) (wi : nat) (decade : string) :
  batch_ok b -> nth_error (workers b) wi = Some (Awaiting decade) -> In decade DECADES.
Proof.
  intros Hok Hw. rewrite <- (ok_fifo b Hok). apply in_or_app. left.
  apply (Permutation_in decade (Permutation_sym (ok_active b Hok))).
  apply in_or_app. right. now apply awaiting_In with wi.
Qed.

Lemma step_keyed (w w' : World) (e : Event) :
  keyed_by_decades w -> asks_decades e -> step w e = Some w' -> keyed_by_decades w'.
Proof.
  intros (Hst & Hbs & Hrs) Hask Hstep.
  assert (Hbs' : Forall batch_ok (batches w')) by (eapply step_batches_ok; eassumption).
  destruct e; simpl in Hstep.
  - injection Hstep as <-. split; [apply store_of_decades_empty|]. split; assumption.
  - injection Hstep as <-. split; [|split; [exact Hbs'|]];
      unfold handleGenerateClick; destruct (uploadedImage w) as [image|]; try assumption;
      destruct (truthy image); try assumption.
    apply store_of_decades_initial.
  - change (In decade DECADES) in Hask.
    injection Hstep as <-. split; [|split; [exact Hbs'|]];
      unfold handleRegenerateDecade; destruct (uploadedImage w) as [image|]; try assumption;
      destruct (truthy image); try assumption; simpl;
      destruct (is_pending decade (generatedImages w)); try assumption; simpl.
    + now apply store_of_decades_set.
    + apply Forall_app. split; [exact Hrs|]. constructor; [exact Hask | constructor].
  - injection Hstep as <-. split; [apply store_of_decades_empty|]. split; assumption.
  - injection Hstep as <-. split; [|split; [exact Hbs'|]];
      unfold handleDownloadIndividualImage;
      destruct (JsObject.get decade (generatedImages w)) as [[st [u|] er]|]; try assumption;
      destruct (is_done_with_url _); assumption.
  - injection Hstep as <-. split; [|split; [exact Hbs'|]];
      unfold handleDownloadAlbum; destruct (Nat.ltb _ _); assumption.
  - destruct (nth_error (batches w) bi) as [b|] eqn:Hb;
      [|unfold processDecade_settled in Hstep; rewrite Hb in Hstep; discriminate].
    assert (Hok : batch_ok b).
    { rewrite Forall_forall in Hbs. apply Hbs. eapply nth_error_In, Hb. }
    destruct (processDecade_settled_fields _ _ _ _ _ _ Hb Hok Hstep)
      as (d & Hw & _ & Hg & _ & _ & _ & Hr & _).
    split; [|split; [exact Hbs' | now rewrite Hr]].
    rewrite Hg. apply store_of_decades_set; [exact Hst|].
    eapply batch_awaiting_decade; eassumption.
  - unfold handleRegenerateDecade_settled in Hstep.
    destruct (nth_error (regens w) ri) as [[image decade [|]]|] eqn:Hr; try discriminate.
    assert (Hd : In decade DECADES).
    { rewrite Forall_forall in Hrs. apply (Hrs _ (nth_error_In _ _ Hr)). }
    injection Hstep as <-. split; [|split; [exact Hbs'|]].
    + destruct s; simpl; now apply store_of_decades_set.
    + destruct s; simpl; apply Forall_update_nth; auto.
  - unfold handleDownloadAlbum_settled in Hstep.
    destruct (nth_error (albums w) ai) as [[imageData [|]]|]; try discriminate.
    injection Hstep as <-. split; [|split; [exact Hbs'|]];
      destruct (Album.createAlbumPage br imageData); assumption.
Qed.

(** X2.  Whatever the handlers and settlements that have run, in whatever
    order, as long as a regeneration was only ever asked for one of the
    six decades: the store never holds a key twice and never a key that is
    not a decade, so it has at most six entries. *)
Theorem store_keys_are_decades (es : list Event) (w : World) :
  Forall asks_decades es -> run initial es = Some w ->
  NoDup (JsObject.keys (generatedImages w)) /\
  incl (JsObject.keys (generatedImages w)) DECADES /\
  length (generatedImages w) <= 6.
Proof.
  intros Hes Hrun.
  assert (Hk : keyed_by_decades w).
  { assert (Hinit : keyed_by_decades initial).
    { split; [apply store_of_decades_empty|]. split; constructor. }
    revert Hinit Hrun. generalize initial as w0.
    induction Hes as [|e es He _ IH]; intros w0 Hinit Hrun; simpl in Hrun.
    - now injection Hrun as <-.
    - destruct (step w0 e) as [w1|] eqn:Hstep; [|discriminate].
      apply (IH w1); [|exact Hrun]. eapply step_keyed; eassumption. }
  destruct Hk as ((Hnd & Hincl) & _). split; [exact Hnd|]. split; [exact Hincl|].
  change 6 with (length DECADES). rewrite <- (length_map fst).
  now apply NoDup_incl_length.
Qed.

Lemma store_keys_are_decades_witness :
  let es := [ImageLoaded (Some "data:image/png;base64,AA"); GenerateClick;
             DecadeSettled 0 0 (Fulfilled "data:a"); Shake "1950s"; ResetClick;
             DecadeSettled 0 1 (Rejected OtherValue); RegenSettled 0 (Fulfilled "data:b")] in
  exists w, run initial es = Some w /\
            JsObject.keys (generatedImages w) = ["1960s"; "1950s"] /\
            NoDup (JsObject.keys (generatedImages w)).
Proof.
  intros es.
  pose (w := match run initial es with Some w => w | None => initial end).
  assert (Hrun : run initial es = Some w) by (vm_compute; reflexivity).
  assert (Hkeys : JsObject.keys (generatedImages w) = ["1960s"; "1950s"])
    by (vm_compute; reflexivity).
  assert (Hes : Forall asks_decades es).
  { repeat constructor. }
  clearbody w.
  destruct (store_keys_are_decades es w Hes Hrun) as (Hnd & _).
  exists w. exact (conj Hrun (conj Hkeys Hnd)).
Defined.

(** ** A batch against a fixed generation client *)

Lemma set_on_map (f : string -> GeneratedImage) (decade : string) (image : GeneratedImage)
    (l : list string) :
  NoDup l -> In decade l ->
  JsObject.set decade image (map (fun x => (x, f x)) l)
  = map (fun x => (x, if String.eqb x decade then image else f x)) l.
Proof.
  induction l as [|x l IH]; intros Hnd Hin; [contradiction|].
  inversion Hnd as [|? ? Hnotin Hnd']; subst. simpl.
  destruct (String.eqb x decade) eqn:E.
  - apply String.eqb_eq in E. subst x. f_equal.
    apply map_ext_in. intros y Hy.
    destruct (String.eqb y decade) eqn:E'; [|reflexivity].
    apply String.eqb_eq in E'. subst y. contradiction.
  - f_equal. apply IH; [exact Hnd'|]. destruct Hin as [->|Hin]; [|exact Hin].
    rewrite String.eqb_refl in E. discriminate.
Qed.

Lemma get_on_map (f : string -> GeneratedImage) (decade : string) (l : list string) :
  In decade l -> JsObject.get decade (map (fun x => (x, f x)) l) = Some (f decade).
Proof.
  induction l as [|x l IH]; intros Hin; [contradiction|]. simpl.
  destruct (String.eqb x decade) eqn:E.
  - apply String.eqb_eq in E. now subst.
  - apply IH. destruct Hin as [->|Hin]; [|exact Hin].
    rewrite String.eqb_refl in E. discriminate.
Qed.

Lemma entry_after_snoc (outcome : string -> Settlement) (done : list string)
    (decade x : string) :
  (if String.eqb x decade then settled_image (outcome decade)
   else entry_after outcome done x)
  = entry_after outcome (done ++ [decade]) x.
Proof.
  unfold entry_after. rewrite existsb_app. simpl. rewrite orb_false_r.
  destruct (String.eqb x decade) eqn:E.
  - apply String.eqb_eq in E. subst. now rewrite orb_true_r.
  - now rewrite orb_false_r.
Qed.

Lemma entry_after_done (outcome : string -> Settlement) (done : list string) (decade : string) :
  In decade done -> entry_after outcome done decade = settled_image (outcome decade).
Proof.
  intros Hin. unfold entry_after.
  replace (existsb (String.eqb decade) done) with true; [reflexivity|].
  symmetry. apply existsb_exists. exists decade. split; [exact Hin|apply String.eqb_refl].
Qed.

Lemma all_awaiting (ws : list Worker) :
  ~ In Returned ws -> length (awaiting ws) = length ws.
Proof.
  induction ws as [|[d|] ws IH]; simpl; intros H; [reflexivity| |].
  - f_equal. apply IH. intros Hin. apply H. now right.
  - exfalso. apply H. now left.
Qed.

(** Requests go out two at the start and one per settlement, until the
    queue is empty. *)
Lemma batch_ok_popped (b : Batch) :
  batch_ok b -> length (popped b) = Nat.min (length (written b) + 2) 6.
Proof.
  intros Hok. destruct (batch_ok_counts b Hok) as (Hcount & _).
  destruct Hok as [Hfifo Hpool Hact Hdr].
  apply Permutation_length in Hact. rewrite length_app in Hact.
  pose proof (length_awaiting (workers b)) as Hle. unfold concurrencyLimit in Hpool.
  destruct (decadesQueue b) as [|next queue'] eqn:Hq; simpl in Hcount.
  - lia.
  - rewrite all_awaiting in Hact, Hcount; [lia| |];
      intros Hin; specialize (Hdr Hin); discriminate.
Qed.

Lemma history_start (outcome : string -> Settlement) (w : World) (image : string) :
  uploadedImage w = Some image -> truthy image = true ->
  batch_history outcome (length (batches w)) image (requests w) 0 (handleGenerateClick w).
Proof.
  intros Hup Htr. exists (fresh_batch image).
  unfold handleGenerateClick. rewrite Hup, Htr.
  split; [simpl; rewrite nth_error_app2, Nat.sub_diag; [reflexivity | lia]|].
  split; [apply fresh_batch_ok|]. repeat split.
Qed.

Lemma history_step (outcome : string -> Settlement) (bi wi k : nat) (image decade : string)
    (sent : list (string * string)) (w w' : World) :
  batch_history outcome bi image sent k w ->
  awaited w bi wi = Some decade ->
  step w (DecadeSettled bi wi (outcome decade)) = Some w' ->
  batch_history outcome bi image sent (S k) w'.
Proof.
  intros (b & Hb & Hok & Him & Hk & Hg & Hreq & Hflags) Haw Hstep. simpl in Hstep.
  destruct (processDecade_settled_fields _ _ _ _ _ _ Hb Hok Hstep)
    as (d & Hw & Hbs & Hg' & Hreq' & Hl & Ha & _).
  assert (d = decade) as ->.
  { unfold awaited in Haw. rewrite Hb, Hw in Haw. now injection Haw. }
  assert (Hrunning : finished b = false) by (eapply awaiting_not_finished; exact Hw).
  rewrite Hrunning in Hflags. destruct Hflags as (Hl0 & Ha0).
  exists (batch_after wi decade b). rewrite Hbs, written_batch_after.
  split; [eapply nth_error_update_nth; exact Hb|].
  split; [now apply batch_after_ok|].
  split; [unfold batch_after; now destruct (decadesQueue b)|].
  split; [rewrite length_app; simpl; lia|].
  split; [|split].
  - rewrite Hg', Hg, set_on_map.
    + apply map_ext. intros x. f_equal. apply entry_after_snoc.
    + exact DECADES_NoDup.
    + eapply batch_awaiting_decade; eassumption.
  - rewrite Hreq', Hreq, Him. unfold batch_after.
    destruct (decadesQueue b) as [|next queue']; cbn [popped]; [reflexivity|].
    now rewrite map_app, rev_app_distr.
  - rewrite Hl, Ha, Hl0, Ha0. destruct (finished (batch_after wi decade b)); split; reflexivity.
Qed.

Lemma history_run (outcome : string -> Settlement) (bi : nat) (image : string)
    (sent : list (string * string)) (schedule : list nat) (k : nat) (w w' : World) :
  batch_history outcome bi image sent k w ->
  run_schedule outcome bi schedule w = Some w' ->
  batch_history outcome bi image sent (k + length schedule) w'.
Proof.
  revert k w. induction schedule as [|wi rest IH]; intros k w Hh Hrun; simpl in Hrun.
  - injection Hrun as <-. now rewrite Nat.add_0_r.
  - destruct (awaited w bi wi) as [decade|] eqn:Haw; [|discriminate].
    destruct (processDecade_settled bi wi (outcome decade) w) as [w1|] eqn:Hstep;
      [|discriminate].
    simpl. rewrite Nat.add_succ_r. apply (IH (S k) w1); [|exact Hrun].
    eapply history_step; eassumption.
Qed.

Lemma history_complete (outcome : string -> Settlement) (bi : nat) (image : string)
    (sent : list (string * string)) (w : World) :
  batch_history outcome bi image sent 6 w ->
  generatedImages w = map (fun decade => (decade, settled_image (outcome decade))) DECADES /\
  requests w = rev (map (fun decade => (image, prompt_of decade)) DECADES) ++ sent /\
  isLoading w = false /\ appState w = results_shown.
Proof.
  intros (b & _ & Hok & _ & Hk & Hg & Hreq & Hflags).
  destruct (batch_ok_counts b Hok) as (Hcount & Hidle).
  assert (Hnil : awaiting (workers b) = []).
  { destruct (awaiting (workers b)); [reflexivity | simpl in Hcount; lia]. }
  destruct (Hidle Hnil) as (Hfin & Hq). rewrite Hfin in Hflags.
  pose proof (ok_fifo b Hok) as Hfifo. rewrite Hq, app_nil_r in Hfifo.
  pose proof (ok_active b Hok) as Hact. rewrite Hnil, app_nil_r, Hfifo in Hact.
  split; [|split; [now rewrite Hreq, Hfifo | exact Hflags]].
  rewrite Hg. apply map_ext_in. intros d Hd. f_equal.
  apply entry_after_done. eapply Permutation_in; eassumption.
Qed.

(** X3.  The outcome of a batch does not depend on the order in which its
    calls settle.  If the call for each decade settles as [outcome] says,
    then after the six settlements, whichever worker's call settled when,
    the store is the six decades in the order of DECADES, each with the
    entry of its own outcome; the six requests have gone out in the order
    of DECADES, each with the image that was uploaded at the click and the
    prompt of its decade; the loading flag is off and the results are
    shown. *)
Theorem batch_result_independent_of_schedule
    (w : World) (image : string) (outcome : string -> Settlement)
    (schedule : list nat) (w' : World) :
  uploadedImage w = Some image -> truthy image = true ->
  run_schedule outcome (length (batches w)) schedule (handleGenerateClick w) = Some w' ->
  length schedule = 6 ->
  generatedImages w' = map (fun decade => (decade, settled_image (outcome decade))) DECADES /\
  requests w' = rev (map (fun decade => (image, prompt_of decade)) DECADES) ++ requests w /\
  isLoading w' = false /\ appState w' = results_shown.
Proof.
  intros Hup Htr Hrun Hsix.
  pose proof (history_run _ _ _ _ _ _ _ _ (history_start outcome w image Hup Htr) Hrun) as Hh.
  rewrite Hsix in Hh. simpl in Hh.
  exact (history_complete _ _ _ _ _ Hh).
Qed.

Lemma batch_result_independent_of_schedule_witness :
  let w := handleImageUpload (Some "data:image/png;base64,AA") initial in
  let outcome := fun decade =>
    if String.eqb decade "1970s" then Rejected (ErrorObject "timeout")
    else Fulfilled ("data:" ++ decade) in
  exists w1 w2,
    run_schedule outcome 0 [0; 1; 0; 1; 0; 1] (handleGenerateClick w) = Some w1 /\
    run_schedule outcome 0 [1; 1; 1; 1; 0; 1] (handleGenerateClick w) = Some w2 /\
    generatedImages w1 = generatedImages w2 /\
    JsObject.get "1970s" (generatedImages w1) = Some (img_error "timeout").
Proof.
  intros w outcome.
  pose (w1 := match run_schedule outcome 0 [0; 1; 0; 1; 0; 1] (handleGenerateClick w) with
              | Some x => x | None => initial end).
  pose (w2 := match run_schedule outcome 0 [1; 1; 1; 1; 0; 1] (handleGenerateClick w) with
              | Some x => x | None => initial end).
  assert (H1 : run_schedule outcome 0 [0; 1; 0; 1; 0; 1] (handleGenerateClick w) = Some w1)
    by (vm_compute; reflexivity).
  assert (H2 : run_schedule outcome 0 [1; 1; 1; 1; 0; 1] (handleGenerateClick w) = Some w2)
    by (vm_compute; reflexivity).
  clearbody w1 w2.
  destruct (batch_result_independent_of_schedule w "data:image/png;base64,AA" outcome
              [0; 1; 0; 1; 0; 1] w1 eq_refl eq_refl H1 eq_refl) as (Hg1 & _).
  destruct (batch_result_independent_of_schedule w "data:image/png;base64,AA" outcome
              [1; 1; 1; 1; 0; 1] w2 eq_refl eq_refl H2 eq_refl) as (Hg2 & _).
  exists w1, w2. split; [exact H1|]. split; [exact H2|].
  split; [now rewrite Hg1, Hg2|]. rewrite Hg1. reflexivity.
Defined.

(** X4.  While fewer than six calls of a batch have settled, the loading
    flag is on and the app state is 'generating'; the requests sent so far
    are two plus one per settlement, at most six; and every decade reads
    as pending or as the entry of its own outcome. *)
Theorem batch_midway
    (w : World) (image : string) (outcome : string -> Settlement)
    (schedule : list nat) (w' : World) :
  uploadedImage w = Some image -> truthy image = true ->
  run_schedule outcome (length (batches w)) schedule (handleGenerateClick w) = Some w' ->
  length schedule < 6 ->
  isLoading w' = true /\ appState w' = generating /\
  length (requests w') = Nat.min (length schedule + 2) 6 + length (requests w) /\
  forall decade, In decade DECADES ->
    JsObject.get decade (generatedImages w') = Some img_pending \/
    JsObject.get decade (generatedImages w') = Some (settled_image (outcome decade)).
Proof.
  intros Hup Htr Hrun Hlt.
  pose proof (history_run _ _ _ _ _ _ _ _ (history_start outcome w image Hup Htr) Hrun) as Hh.
  simpl in Hh. destruct Hh as (b & _ & Hok & _ & Hk & Hg & Hreq & Hflags).
  destruct (batch_ok_counts b Hok) as (Hcount & Hidle).
  assert (Hrunning : finished b = false).
  { destruct (finished b) eqn:Hfin; [|reflexivity]. exfalso.
    assert (Hnil : awaiting (workers b) = []).
    { unfold finished in Hfin. clear -Hfin.
      induction (workers b) as [|[d|] ws IH]; simpl in *; try discriminate; auto. }
    destruct (Hidle Hnil) as (_ & Hq). rewrite Hnil, Hq in Hcount. simpl in Hcount. lia. }
  rewrite Hrunning in Hflags. destruct Hflags as (Hl & Ha).
  split; [exact Hl|]. split; [exact Ha|]. split.
  - rewrite Hreq, length_app, length_rev, length_map, (batch_ok_popped b Hok), Hk.
    reflexivity.
  - intros decade Hd. rewrite Hg, (get_on_map _ decade DECADES Hd).
    unfold entry_after. destruct (existsb _ _); auto.
Qed.

Lemma batch_midway_witness :
  let w := handleImageUpload (Some "data:image/png;base64,AA") initial in
  let outcome := fun decade => Fulfilled ("data:" ++ decade) in
  exists w',
    run_schedule outcome 0 [1; 1; 0] (handleGenerateClick w) = Some w' /\
    isLoading w' = true /\ length (requests w') = 5.
Proof.
  intros w outcome.
  pose (w' := match run_schedule outcome 0 [1; 1; 0] (handleGenerateClick w) with
              | Some x => x | None => initial end).
  assert (H : run_schedule outcome 0 [1; 1; 0] (handleGenerateClick w) = Some w')
    by (vm_compute; reflexivity).
  clearbody w'.
  assert (Hlt : length [1; 1; 0] < 6) by (simpl; lia).
  destruct (batch_midway w "data:image/png;base64,AA" outcome [1; 1; 0] w'
              eq_refl eq_refl H Hlt) as (Hl & _ & Hn & _).
  exists w'. exact (conj H (conj Hl Hn)).
Defined.

(** ** Guards, reset and the single download *)

(** X5.  The guard [!uploadedImage] of the two generation handlers also
    stops on the empty string: whenever the uploaded image is null or
    empty, the batch generation and the regeneration of any decade leave
    the world as it is. *)
Theorem falsy_upload_no_generation (w : World) (decade : string) :
  truthy_opt (uploadedImage w) = false ->
  handleGenerateClick w = w /\ handleRegenerateDecade decade w = w.
Proof.
  intros H. unfold handleGenerateClick, handleRegenerateDecade.
  destruct (uploadedImage w) as [image|]; [|now split].
  simpl in H. rewrite H. now split.
Qed.

Lemma falsy_upload_no_generation_witness :
  let w := handleImageUpload (Some "") initial in
  uploadedImage w = Some "" /\
  handleGenerateClick w = w /\ handleRegenerateDecade "1980s" w = w.
Proof.
  intros w. split; [reflexivity|].
  apply (falsy_upload_no_generation w "1980s"). reflexivity.
Defined.

(** X6.  After a reset the generation, the regeneration and the single
    download of any decade do nothing, a second reset changes nothing, and
    the album download is blocked with its alert.  The reset itself cancels
    nothing: the suspended batches and regenerations and the loading flag
    are as before it. *)
Theorem after_reset (w : World) (decade : string) :
  let w0 := handleReset w in
  handleGenerateClick w0 = w0 /\
  handleRegenerateDecade decade w0 = w0 /\
  handleDownloadIndividualImage decade w0 = w0 /\
  handleReset w0 = w0 /\
  albums (handleDownloadAlbum w0) = albums w /\
  alerts (handleDownloadAlbum w0)
    = "Please wait for all images to finish generating before downloading the album."
      :: alerts w /\
  batches w0 = batches w /\ regens w0 = regens w /\ isLoading w0 = isLoading w.
Proof.
  cbv zeta. repeat split.
Qed.

(** X7.  The single download saves a file exactly for an entry that is
    done with a non-empty url: then the link is that url and the file name
    is past-forward-<decade>.jpg.  For a pending, failed or absent entry,
    or an empty url, the world is left as it is.  In no case is the store
    written or a request sent. *)
Theorem single_download_only_done (w : World) (decade : string) :
  let w' := handleDownloadIndividualImage decade w in
  generatedImages w' = generatedImages w /\ requests w' = requests w /\
  (forall image u,
     JsObject.get decade (generatedImages w) = Some image ->
     status image = st_done -> url image = Some u -> truthy u = true ->
     saved w' = (u, ("past-forward-" ++ decade ++ ".jpg")%string) :: saved w) /\
  (w' <> w ->
   exists image u,
     JsObject.get decade (generatedImages w) = Some image /\
     status image = st_done /\ url image = Some u /\ truthy u = true).
Proof.
  cbv zeta. unfold handleDownloadIndividualImage.
  destruct (JsObject.get decade (generatedImages w)) as [[st [u|] er]|] eqn:Hget.
  - destruct (is_done_with_url (mkImage st (Some u) er)) eqn:Hd.
    + split; [reflexivity|]. split; [reflexivity|]. split.
      * intros image v Himg _ Hurl _. injection Himg as <-. simpl in Hurl.
        now injection Hurl as <-.
      * intros _. exists (mkImage st (Some u) er), u.
        unfold is_done_with_url in Hd. simpl in Hd. apply andb_prop in Hd.
        destruct Hd as (Hst & Htr). destruct st; try discriminate. repeat split. exact Htr.
    + split; [reflexivity|]. split; [reflexivity|]. split; [|congruence].
      intros image v Himg Hst Hurl Hv. injection Himg as <-. simpl in Hurl, Hst.
      injection Hurl as <-. unfold is_done_with_url in Hd. simpl in Hd.
      rewrite Hst, Hv in Hd. discriminate.
  - split; [reflexivity|]. split; [reflexivity|]. split; [|congruence].
    intros image v Himg _ Hurl _. injection Himg as <-. discriminate.
  - split; [reflexivity|]. split; [reflexivity|]. split; [|congruence].
    intros image v Himg. discriminate.
Qed.

Lemma single_download_only_done_witness :
  let w := {| uploadedImage := Some "data:image/png;base64,AA";
              generatedImages := [("1950s", img_done "data:a"); ("1960s", img_error "timeout")];
              isLoading := false; isDownloading := false; appState := results_shown;
              batches := []; regens := []; albums := [];
              requests := []; alerts := []; saved := []; console := [] |} in
  saved (handleDownloadIndividualImage "1950s" w) = [("data:a", "past-forward-1950s.jpg")] /\
  handleDownloadIndividualImage "1960s" w = w.
Proof.
  intros w.
  destruct (single_download_only_done w "1950s") as (_ & _ & Hsave & _).
  split; [|reflexivity].
  exact (Hsave (img_done "data:a") "data:a" eq_refl eq_refl eq_refl eq_refl).
Defined.

(** X8.  In any reachable world, the settlement that makes the last worker
    of a batch return switches the loading flag off and the app state to
    'results-shown', whatever ran in between: also after a reset, when the
    store was cleared and no image is uploaded any more. *)
Theorem batch_end_shows_results (w w' : World) (bi wi : nat) (s : Settlement) (b' : Batch) :
  reachable w ->
  step w (DecadeSettled bi wi s) = Some w' ->
  nth_error (batches w') bi = Some b' -> finished b' = true ->
  isLoading w' = false /\ appState w' = results_shown.
Proof.
  intros Hreach Hstep Hb' Hfin. simpl in Hstep.
  destruct (nth_error (batches w) bi) as [b|] eqn:Hb;
    [|unfold processDecade_settled in Hstep; rewrite Hb in Hstep; discriminate].
  assert (Hok : batch_ok b).
  { pose proof (reachable_batches_ok w Hreach) as Hall.
    rewrite Forall_forall in Hall. apply Hall. eapply nth_error_In, Hb. }
  destruct (processDecade_settled_inv _ _ _ _ _ _ Hb Hok Hstep) as (d & _ & Hbs & _ & Hend).
  rewrite Hbs, (nth_error_update_nth _ _ _ _ Hb) in Hb'. injection Hb' as <-.
  exact (Hend Hfin).
Qed.

Lemma batch_end_shows_results_witness :
  let es := [ImageLoaded (Some "data:image/png;base64,AA"); GenerateClick;
             DecadeSettled 0 0 (Fulfilled "data:a"); DecadeSettled 0 1 (Fulfilled "data:b");
             ResetClick;
             DecadeSettled 0 0 (Fulfilled "data:c"); DecadeSettled 0 1 (Fulfilled "data:d");
             DecadeSettled 0 0 (Fulfilled "data:e")] in
  exists w w',
    run initial es = Some w /\
    step w (DecadeSettled 0 1 (Fulfilled "data:f")) = Some w' /\
    uploadedImage w' = None /\
    JsObject.keys (generatedImages w') = ["1970s"; "1980s"; "1990s"; "2000s"] /\
    appState w' = results_shown.
Proof.
  intros es.
  pose (w := match run initial es with Some x => x | None => initial end).
  pose (w' := match step w (DecadeSettled 0 1 (Fulfilled "data:f")) with
              | Some x => x | None => initial end).
  assert (Hrun : run initial es = Some w) by (vm_compute; reflexivity).
  assert (Hstep : step w (DecadeSettled 0 1 (Fulfilled "data:f")) = Some w')
    by (vm_compute; reflexivity).
  assert (Hup : uploadedImage w' = None) by (vm_compute; reflexivity).
  assert (Hkeys : JsObject.keys (generatedImages w') = ["1970s"; "1980s"; "1990s"; "2000s"])
    by (vm_compute; reflexivity).
  assert (Hb : nth_error (batches w') 0
               = Some (mkBatch "data:image/png;base64,AA" [] [Returned; Returned] DECADES
                         ["1950s"; "1960s"; "1970s"; "1980s"; "1990s"; "2000s"]))
    by (vm_compute; reflexivity).
  clearbody w w'.
  destruct (batch_end_shows_results w w' 0 1 (Fulfilled "data:f") _
              (ex_intro _ es Hrun) Hstep Hb eq_refl) as (_ & Ha).
  exists w, w'. exact (conj Hrun (conj Hstep (conj Hup (conj Hkeys Ha)))).
Defined.

(** ** The album download, when it goes through *)

Lemma set_notin {A : Type} (o : JsObject.t A) (k : string) (v : A) :
  ~ In k (JsObject.keys o) -> JsObject.set k v o = o ++ [(k, v)].
Proof.
  unfold JsObject.keys. induction o as [|[k' v'] o IH]; simpl; [reflexivity|].
  intros Hnot. destruct (String.eqb k' k) eqn:E.
  - apply String.eqb_eq in E. subst. exfalso. apply Hnot. now left.
  - f_equal. apply IH. intros Hin. apply Hnot. now right.
Qed.

Lemma fold_done_urls (g : Store) (acc : JsObject.t string) :
  NoDup (JsObject.keys acc ++ JsObject.keys g) ->
  fold_left (fun acc entry =>
               match url (snd entry) with
               | Some u => JsObject.set (fst entry) u acc
               | None => acc
               end)
            (filter (fun entry => is_done_with_url (snd entry)) g) acc
  = acc ++ done_urls g.
Proof.
  revert acc. induction g as [|[k image] g IH]; intros acc Hnd; simpl.
  - now rewrite app_nil_r.
  - unfold JsObject.keys in Hnd. simpl in Hnd.
    assert (Hrest : NoDup (JsObject.keys acc ++ JsObject.keys g))
      by (now apply NoDup_remove_1 in Hnd).
    destruct (is_done_with_url image) eqn:Hd; simpl.
    + destruct (url image) as [u|] eqn:Hu.
      * rewrite set_notin.
        -- rewrite IH; [now rewrite <- app_assoc|].
           unfold JsObject.keys. rewrite map_app, <- app_assoc. exact Hnd.
        -- apply NoDup_remove_2 in Hnd. intros Hin. apply Hnd, in_or_app. now left.
      * unfold is_done_with_url in Hd. rewrite Hu, andb_false_r in Hd. discriminate.
    + rewrite IH by exact Hrest. now destruct (url image).
Qed.


Lemma imageData_of_done_urls (g : Store) :
  NoDup (JsObject.keys g) -> imageData_of g = done_urls g.
Proof.
  intros Hnd. unfold imageData_of, JsObject.entries. now rewrite fold_done_urls.
Qed.



Lemma Promise_all_resolves (br : Album.Browser) (urls : list string) :
  Forall (fun u => Album.decode br u <> None) urls ->
  exists imgs, Album.Promise_all (map (Album.loadImage br) urls) = inr imgs.
Proof.
  induction 1 as [|u urls Hu _ (imgs & IH)]; simpl; [eauto|].
  unfold Album.loadImage at 1. destruct (Album.decode br u) as [img|]; [|congruence].
  rewrite IH. eauto.
Qed.

(** X10.  [createAlbumPage] resolves with a data URL exactly when the
    canvas gives a 2D context and every input image decodes.  A missing
    context is reported before any image is looked at, with its own
    message. *)
Theorem createAlbumPage_resolves_iff (br : Album.Browser) (imageData : JsObject.t string) :
  ((exists dataUrl, Album.createAlbumPage br imageData = inr dataUrl) <->
   Album.getContext2d br = true /\
   Forall (fun u => Album.decode br u <> None) (JsObject.values imageData)) /\
  (Album.getContext2d br = false ->
   Album.createAlbumPage br imageData = inl "Could not get 2D canvas context").
Proof.
  unfold Album.createAlbumPage. split; [split|].
  - intros (dataUrl & H). destruct (Album.getContext2d br); [|discriminate].
    split; [reflexivity|]. apply Forall_forall. intros u Hin Hnone.
    destruct (Promise_all_rejects br (JsObject.values imageData)) as (e & He); [eauto|].
    simpl in H. rewrite He in H. discriminate.
  - intros (Hctx & Hall). rewrite Hctx. simpl.
    destruct (Promise_all_resolves br _ Hall) as (imgs & ->). eauto.
  - now intros ->.
Qed.

Lemma createAlbumPage_resolves_iff_witness :
  let br := Album.mkBrowser false (fun _ => None) (fun _ => 0.5%float) (fun _ => "data:x") in
  Album.createAlbumPage br [("1950s", "data:a")] = inl "Could not get 2D canvas context" /\
  ~ exists dataUrl, Album.createAlbumPage br [("1950s", "data:a")] = inr dataUrl.
Proof.
  intros br.
  destruct (createAlbumPage_resolves_iff br [("1950s", "data:a")]) as ((Honly & _) & Hctx).
  split; [exact (Hctx eq_refl)|].
  intros Hex. destruct (Honly Hex) as (Hc & _). discriminate Hc.
Defined.

Lemma mapi_from_id {A : Type} (i : nat) (xs : list A) :
  Album.mapi_from (fun a _ => a) i xs = xs.
Proof.
  revert i. induction xs as [|a xs IH]; intros i; simpl; [reflexivity|]. now rewrite IH.
Qed.

Lemma Promise_all_decoded (br : Album.Browser) (urls : list string) (imgs : list Album.Image) :
  Album.Promise_all (map (Album.loadImage br) urls) = inr imgs ->
  Forall2 (fun u img => Album.decode br u = Some img) urls imgs.
Proof.
  revert imgs. induction urls as [|u urls IH]; intros imgs H; simpl in H.
  - injection H as <-. constructor.
  - unfold Album.loadImage at 1 in H.
    destruct (Album.decode br u) as [img|] eqn:E; [|discriminate].
    destruct (Album.Promise_all (map (Album.loadImage br) urls)) as [e|imgs'];
      [discriminate|].
    injection H as <-. constructor; auto.
Qed.

Lemma captioned_cards (f : nat -> nat) (i : nat) (items : list (string * Album.Image)) :
  captioned (concat (Album.mapi_from (fun item j => card_as_specified item (f j)) i items))
  = items.
Proof.
  revert i. induction items as [|[d img] items IH]; intros i; [reflexivity|].
  cbn [Album.mapi_from concat card_as_specified app captioned fst snd].
  f_equal. apply IH.
Qed.

(** The photos on the painted page, each with the label written under it. *)
Lemma captioned_page (br : Album.Browser) (items : list (string * Album.Image)) :
  captioned (marks (Album.header_ops ++ flat_map Album.paint (Album.plan br items)))
  = rev items.
Proof.
  rewrite marks_of_page. unfold page_as_specified.
  cbn [app captioned]. rewrite <- mapi_from_rev. apply captioned_cards.
Qed.

(** X11.  Every input image is painted exactly once, under its own key:
    the images drawn on the canvas, each with the text written next after
    it, are the entries of the input in reverse order (key, image), and
    each image is the one decoded from the url stored under that key. *)
Theorem album_captions_match (br : Album.Browser) (imageData : JsObject.t string)
    (loadedImages : list Album.Image) :
  Album.Promise_all (map (Album.loadImage br) (JsObject.values imageData))
    = inr loadedImages ->
  captioned (marks (Album.header_ops
                    ++ flat_map Album.paint
                         (Album.plan br (combine (JsObject.keys imageData) loadedImages))))
  = rev (combine (JsObject.keys imageData) loadedImages) /\
  map fst (combine (JsObject.keys imageData) loadedImages) = JsObject.keys imageData /\
  Forall2 (fun entry img => Album.decode br (snd entry) = Some img) imageData loadedImages.
Proof.
  intros Hall. split; [apply captioned_page|]. split.
  - apply map_fst_combine. rewrite (Promise_all_length _ _ Hall).
    unfold JsObject.keys, JsObject.values. now rewrite !length_map.
  - apply Promise_all_decoded in Hall. unfold JsObject.values in Hall.
    clear -Hall. revert loadedImages Hall.
    induction imageData as [|e imageData IH]; intros imgs H; inversion H; subst;
      constructor; auto.
Qed.

Lemma album_captions_match_witness :
  let br := Album.mkBrowser true
              (fun u => Some (Album.mkImg u 1024%float 768%float))
              (fun _ => 0.5%float) (fun _ => "data:image/jpeg;base64,album") in
  let imageData := [("1950s", "data:a"); ("1960s", "data:b")] in
  let loadedImages := map (fun u => Album.mkImg u 1024%float 768%float)
                          (JsObject.values imageData) in
  captioned (marks (Album.header_ops
                    ++ flat_map Album.paint
                         (Album.plan br (combine (JsObject.keys imageData) loadedImages))))
  = [("1960s", Album.mkImg "data:b" 1024%float 768%float);
     ("1950s", Album.mkImg "data:a" 1024%float 768%float)].
Proof.
  intros br imageData loadedImages.
  destruct (album_captions_match br imageData loadedImages eq_refl) as (Hc & _).
  rewrite Hc. reflexivity.
Defined.

(** ** [loadImage] *)

Lemma substring_0_length (n : nat) (s : string) :
  String.length (substring 0 n s) = Nat.min n (String.length s).
Proof.
  revert s. induction n as [|n IH]; intros [|c s]; simpl; auto.
Qed.

Lemma substring_0_prefix (n : nat) (s : string) : prefix (substring 0 n s) s = true.
Proof.
  revert s. induction n as [|n IH]; intros [|c s]; simpl; auto.
  destruct (Ascii.ascii_dec c c) as [_|Hne]; [apply IH | congruence].
Qed.

Lemma substring_0_all (n : nat) (s : string) :
  String.length s <= n -> substring 0 n s = s.
Proof.
  revert s. induction n as [|n IH]; intros [|c s] H; simpl in *; auto; try lia.
  f_equal. apply IH. lia.
Qed.

(** X12.  When an image does not decode, [loadImage] rejects with a
    message that quotes a prefix of the source of at most 50 characters
    (the whole source when it is that short), between "Failed to load
    image: " and "...": the message stays short however long the data URL
    is. *)
Theorem loadImage_message (br : Album.Browser) (src : string) :
  Album.decode br src = None ->
  exists quoted,
    Album.loadImage br src = inl ("Failed to load image: " ++ quoted ++ "...")%string /\
    String.length quoted = Nat.min 50 (String.length src) /\
    prefix quoted src = true /\
    (String.length src <= 50 -> quoted = src).
Proof.
  intros Hdec. exists (substring 0 50 src). unfold Album.loadImage. rewrite Hdec.
  split; [reflexivity|]. split; [apply substring_0_length|].
  split; [apply substring_0_prefix | apply substring_0_all].
Qed.

Lemma loadImage_message_witness :
  let br := Album.mkBrowser true (fun _ => None) (fun _ => 0.5%float) (fun _ => "data:x") in
  let src := "data:image/png;base64,iVBORw0KGgoAAAANSUhEUgAAAAEAAAABCAYAAAAfFcSJAAAADUlEQVR42mNk" in
  exists quoted,
    Album.loadImage br src = inl ("Failed to load image: " ++ quoted ++ "...")%string /\
    String.length quoted = 50.
Proof.
  intros br src.
  destruct (loadImage_message br src eq_refl) as (quoted & Hmsg & Hlen & _).
  exists quoted. split; [exact Hmsg | exact Hlen].
Defined.

(** ** Where the cards land *)

Lemma plan_xy (br : Album.Browser) (items : list (string * Album.Image)) :
  Forall (fun p => Album.x p = cell_x (Album.col p) /\
                   Album.y p = cell_y (Album.row p) /\
                   Album.width p = Album.polaroidWidth /\
                   Album.height p = Album.polaroidHeight /\
                   Album.col p < 2 /\
                   (length items <= 6 -> Album.row p < 3))
         (Album.plan br items).
Proof.
  apply plan_Forall. intros [d i] j. unfold Album.place.
  cbn [Album.x Album.y Album.width Album.height Album.col Album.row].
  repeat split.
  - apply Nat.mod_upper_bound. discriminate.
  - intros Hsix. apply Nat.Div0.div_lt_upper_bound. unfold Album.grid_cols. lia.
Qed.

(** X13.  With at most six items, every card, before its rotation, lies on
    the canvas and below the header: 0 <= x, x + width <= 2480,
    300 <= y and y + height <= 3508.  Cards in different columns do not
    overlap horizontally and cards in different rows do not overlap
    vertically. *)
Theorem cards_on_canvas (br : Album.Browser) (items : list (string * Album.Image)) :
  length items <= 6 ->
  Forall (fun p =>
            (0 <=? Album.x p)%float = true /\
            (Album.x p + Album.width p <=? Album.canvasWidth)%float = true /\
            (Album.contentTopMargin <=? Album.y p)%float = true /\
            (Album.y p + Album.height p <=? Album.canvasHeight)%float = true)
         (Album.plan br items) /\
  forall p q, In p (Album.plan br items) -> In q (Album.plan br items) ->
    (Album.col p < Album.col q ->
     (Album.x p + Album.width p <=? Album.x q)%float = true) /\
    (Album.row p < Album.row q ->
     (Album.y p + Album.height p <=? Album.y q)%float = true).
Proof.
  intros Hsix. pose proof (plan_xy br items) as Hxy. split.
  - eapply Forall_impl; [|exact Hxy].
    intros p (-> & -> & -> & -> & Hc & Hr). specialize (Hr Hsix).
    destruct (Album.col p) as [|[|c]]; [| |lia];
      (destruct (Album.row p) as [|[|[|r]]]; [| | |lia]);
      repeat split; vm_compute; reflexivity.
  - rewrite Forall_forall in Hxy. intros p q Hp Hq.
    destruct (Hxy p Hp) as (-> & -> & -> & -> & Hcp & Hrp).
    destruct (Hxy q Hq) as (-> & -> & _ & _ & Hcq & Hrq).
    specialize (Hrp Hsix). specialize (Hrq Hsix). split; intros Hlt.
    + destruct (Album.col p) as [|[|c]], (Album.col q) as [|[|c']]; try lia.
      vm_compute; reflexivity.
    + destruct (Album.row p) as [|[|[|r]]], (Album.row q) as [|[|[|r']]]; try lia;
        vm_compute; reflexivity.
Qed.

Lemma cards_on_canvas_witness :
  let br := Album.mkBrowser true
              (fun u => Some (Album.mkImg u 1024%float 1024%float))
              (fun _ => 0.5%float) (fun _ => "data:image/jpeg;base64,album") in
  let items := map (fun decade => (decade, Album.mkImg decade 1024%float 1024%float))
                   DECADES in
  map (fun p => (Album.x p, Album.y p)) (Album.plan br items)
  = [(1484%float, 2518.8000000000002%float); (294%float, 2518.8000000000002%float);
     (1484%float, 1482.8%float); (294%float, 1482.8%float);
     (1484%float, 446.80000000000001%float); (294%float, 446.80000000000001%float)] /\
  Forall (fun p => (Album.y p + Album.height p <=? Album.canvasHeight)%float = true)
         (Album.plan br items).
Proof.
  intros br items. split; [vm_compute; reflexivity|].
  assert (Hsix : length items <= 6) by (vm_compute; lia).
  destruct (cards_on_canvas br items Hsix) as (Hall & _).
  eapply Forall_impl; [|exact Hall]. intros p (_ & _ & _ & H). exact H.
Defined.


(** ** From a complete batch to the saved album *)

Lemma processDecade_settled_quiet (w w' : World) (bi wi : nat) (s : Settlement) :
  processDecade_settled bi wi s w = Some w' ->
  albums w' = albums w /\ alerts w' = alerts w /\ saved w' = saved w.
Proof.
  unfold processDecade_settled. intros H.
  destruct (nth_error (batches w) bi) as [b|]; [|discriminate].
  destruct (nth_error (workers b) wi) as [[decade|]|]; try discriminate.
  unfold worker_run in H. cbn [decadesQueue] in H.
  destruct (worker_loop (decadesQueue b)) as [[next|] queue']; injection H as <-;
    unfold join; match goal with |- context [finished ?b0] => destruct (finished b0) end;
    destruct s; repeat split.
Qed.

Lemma run_schedule_quiet (outcome : string -> Settlement) (bi : nat) (schedule : list nat)
    (w w' : World) :
  run_schedule outcome bi schedule w = Some w' ->
  albums w' = albums w /\ alerts w' = alerts w /\ saved w' = saved w.
Proof.
  revert w. induction schedule as [|wi rest IH]; intros w H; simpl in H.
  - now injection H as <-.
  - destruct (awaited w bi wi) as [decade|]; [|discriminate].
    destruct (processDecade_settled bi wi (outcome decade) w) as [w1|] eqn:Hs; [|discriminate].
    destruct (processDecade_settled_quiet _ _ _ _ _ Hs) as (Ha & Hl & Hsv).
    destruct (IH w1 H) as (-> & -> & ->). repeat split; assumption.
Qed.

Lemma handleGenerateClick_quiet (w : World) :
  albums (handleGenerateClick w) = albums w /\
  alerts (handleGenerateClick w) = alerts w /\
  saved (handleGenerateClick w) = saved w.
Proof.
  unfold handleGenerateClick. destruct (uploadedImage w) as [image|]; [|now repeat split].
  destruct (truthy image); now repeat split.
Qed.

Lemma done_urls_all_done (url_of : string -> string) (l : list string) :
  (forall decade, In decade l -> truthy (url_of decade) = true) ->
  done_urls (map (fun decade => (decade, img_done (url_of decade))) l)
  = map (fun decade => (decade, url_of decade)) l.
Proof.
  induction l as [|d l IH]; intros H; [reflexivity|].
  unfold done_urls in *. simpl. unfold is_done_with_url. simpl.
  rewrite (H d) by now left. simpl. f_equal. apply IH. intros x Hx. apply H. now right.
Qed.

Lemma keys_of_map {A : Type} (f : string -> A) (l : list string) :
  JsObject.keys (map (fun decade => (decade, f decade)) l) = l.
Proof.
  unfold JsObject.keys. induction l as [|d l IH]; simpl; [reflexivity | now rewrite IH].
Qed.

Lemma values_of_map {A : Type} (f : string -> A) (l : list string) :
  JsObject.values (map (fun decade => (decade, f decade)) l) = map f l.
Proof.
  unfold JsObject.values. induction l as [|d l IH]; simpl; [reflexivity | now rewrite IH].
Qed.

(** X15.  From the click to the saved album.  If every one of the six
    calls resolves with a non-empty url, the canvas gives a context and
    the six urls decode, then, in whatever order the calls settled, the
    album download raises no alert and saves one file named
    past-forward-album.jpg: the encoding of the canvas on which, after the
    background and the title, the cards are painted from the last grid
    position to the first, "2000s" centred in the cell of row 2, column 1
    down to "1950s" in row 0, column 0, each card with the image decoded
    from its own url and then its label.  The in-progress flag is off
    again. *)
Theorem album_of_a_complete_batch
    (w : World) (image : string) (url_of : string -> string)
    (schedule : list nat) (w1 : World) (br : Album.Browser) :
  uploadedImage w = Some image -> truthy image = true ->
  (forall decade, In decade DECADES -> truthy (url_of decade) = true) ->
  run_schedule (fun decade => Fulfilled (url_of decade)) (length (batches w)) schedule
    (handleGenerateClick w) = Some w1 ->
  length schedule = 6 ->
  Album.getContext2d br = true ->
  (forall decade, In decade DECADES -> Album.decode br (url_of decade) <> None) ->
  exists w2 loadedImages,
    run w1 [DownloadAlbumClick; AlbumSettled (length (albums w)) br] = Some w2 /\
    Forall2 (fun decade img => Album.decode br (url_of decade) = Some img)
            DECADES loadedImages /\
    saved w2 = (Album.toDataURL br (Album.canvas_ops br (combine DECADES loadedImages)),
                "past-forward-album.jpg") :: saved w /\
    alerts w2 = alerts w /\ isDownloading w2 = false /\
    marks (Album.canvas_ops br (combine DECADES loadedImages))
    = [ Frame 0%float 0%float 2480%float 3508%float;
        Caption "Generated with Past Forward";
        Caption "on Google AI Studio" ]
      ++ concat (rev (Album.mapi_from
           (fun item index =>
              [ MoveTo (cell_x (index mod 2) + Album.polaroidWidth / 2)%float
                       (cell_y (index / 2) + Album.polaroidHeight / 2)%float;
                Frame (- Album.polaroidWidth / 2)%float (- Album.polaroidHeight / 2)%float
                      Album.polaroidWidth Album.polaroidHeight;
                Photo (snd item);
                Caption (fst item) ])
           0 (combine DECADES loadedImages))) /\
    captioned (marks (Album.canvas_ops br (combine DECADES loadedImages)))
    = rev (combine DECADES loadedImages) /\
    map (fun p => (Album.decade p, Album.row p, Album.col p))
        (Album.plan br (combine DECADES loadedImages))
    = [("2000s", 2, 1); ("1990s", 2, 0); ("1980s", 1, 1);
       ("1970s", 1, 0); ("1960s", 0, 1); ("1950s", 0, 0)].
Proof.
  intros Hup Htr Hurls Hrun Hsix Hctx Hdec.
  pose proof (history_run _ _ _ _ _ _ _ _
                (history_start (fun decade => Fulfilled (url_of decade)) w image Hup Htr)
                Hrun) as Hh.
  rewrite Hsix in Hh. simpl in Hh.
  destruct (history_complete _ _ _ _ _ Hh) as (Hg & _).
  destruct (run_schedule_quiet _ _ _ _ _ Hrun) as (Ha1 & Hl1 & Hs1).
  destruct (handleGenerateClick_quiet w) as (Ha0 & Hl0 & Hs0).
  rewrite Ha0 in Ha1. rewrite Hl0 in Hl1. rewrite Hs0 in Hs1.
  set (imageData := map (fun decade => (decade, url_of decade)) DECADES).
  assert (Himg : imageData_of (generatedImages w1) = imageData).
  { rewrite Hg. cbn [settled_image]. rewrite imageData_of_done_urls.
    - now apply done_urls_all_done.
    - rewrite keys_of_map. exact DECADES_NoDup. }
  assert (Hall : Forall (fun u => Album.decode br u <> None) (JsObject.values imageData)).
  { unfold imageData. rewrite values_of_map.
    apply Forall_forall. intros u Hu. apply in_map_iff in Hu.
    destruct Hu as (d & <- & Hd). now apply Hdec. }
  destruct (Promise_all_resolves br _ Hall) as (loadedImages & Hload).
  assert (Hkeys : JsObject.keys imageData = DECADES) by apply keys_of_map.
  assert (Hpage : Album.createAlbumPage br imageData
                  = inr (Album.toDataURL br
                           (Album.canvas_ops br (combine DECADES loadedImages)))).
  { unfold Album.createAlbumPage. now rewrite Hctx, Hload, Hkeys. }
  assert (Hstart : handleDownloadAlbum w1
                   = setAlbums (albums w ++ [mkAlbumJob imageData false])
                       (setIsDownloading true w1)).
  { unfold handleDownloadAlbum. cbn [generatedImages setIsDownloading albums].
    rewrite Himg, Hkeys, Ha1. reflexivity. }
  eexists. exists loadedImages.
  split.
  { cbn [run step]. rewrite Hstart. unfold handleDownloadAlbum_settled.
    cbn [albums setAlbums]. rewrite nth_error_app2, Nat.sub_diag by lia.
    cbn [nth_error]. rewrite Hpage. reflexivity. }
  split.
  { pose proof (Promise_all_decoded br _ _ Hload) as Hd. unfold imageData in Hd.
    rewrite values_of_map in Hd. clear -Hd. revert loadedImages Hd.
    induction DECADES as [|d l IH]; intros imgs H; inversion H; subst; constructor; auto. }
  split; [cbn; now rewrite Hs1|]. split; [cbn; exact Hl1|]. split; [reflexivity|].
  split; [exact (marks_of_page br _)|]. split; [exact (captioned_page br _)|].
  rewrite plan_cells, map_fst_combine.
  - reflexivity.
  - rewrite (Promise_all_length _ _ Hload). unfold imageData.
    now rewrite values_of_map, !length_map.
Qed.

Lemma album_of_a_complete_batch_witness :
  let w := handleImageUpload (Some "data:image/png;base64,AA") initial in
  let url_of := fun decade : string => ("data:" ++ decade)%string in
  let br := Album.mkBrowser true
              (fun u => Some (Album.mkImg u 1024%float 1024%float))
              (fun _ => 0.5%float)
              (fun ops => if Nat.eqb (length ops) 111 then "data:image/jpeg;base64,album"
                          else "data:,") in
  exists w1 w2,
    run_schedule (fun decade => Fulfilled (url_of decade)) 0 [1; 0; 0; 1; 1; 0]
      (handleGenerateClick w) = Some w1 /\
    run w1 [DownloadAlbumClick; AlbumSettled 0 br] = Some w2 /\
    saved w2 = [("data:image/jpeg;base64,album", "past-forward-album.jpg")] /\
    isDownloading w2 = false.
Proof.
  intros w url_of br.
  pose (w1 := match run_schedule (fun decade => Fulfilled (url_of decade)) 0
                      [1; 0; 0; 1; 1; 0] (handleGenerateClick w) with
              | Some x => x | None => initial end).
  assert (Hrun : run_schedule (fun decade => Fulfilled (url_of decade)) 0
                   [1; 0; 0; 1; 1; 0] (handleGenerateClick w) = Some w1)
    by (vm_compute; reflexivity).
  clearbody w1.
  assert (Hurls : forall decade, In decade DECADES -> truthy (url_of decade) = true).
  { intros d Hd. unfold DECADES in Hd. simpl in Hd.
    repeat destruct Hd as [<-|Hd]; try reflexivity; contradiction. }
  assert (Hdec : forall decade, In decade DECADES ->
                                Album.decode br (url_of decade) <> None)
    by (intros d _; discriminate).
  destruct (album_of_a_complete_batch w "data:image/png;base64,AA" url_of
              [1; 0; 0; 1; 1; 0] w1 br eq_refl eq_refl Hurls Hrun eq_refl eq_refl Hdec)
    as (w2 & loaded & Hdl & Hloaded & Hsaved & _ & Hflag & _).
  assert (Heq : loaded = map (fun decade => Album.mkImg (url_of decade) 1024%float 1024%float)
                             DECADES).
  { unfold DECADES in *.
    repeat match goal with
           | H : Forall2 _ (_ :: _) _ |- _ => inversion H; subst; clear H
           | H : Forall2 _ [] _ |- _ => inversion H; subst; clear H
           | H : Album.decode br _ = Some _ |- _ => injection H as <-
           end.
    reflexivity. }
  subst loaded.
  exists w1, w2. split; [exact Hrun|]. split; [exact Hdl|]. split; [|exact Hflag].
  rewrite Hsaved. vm_compute. reflexivity.
Defined.

(** ** No partial album, in any run *)

Lemma keys_done_urls (g : Store) :
  JsObject.keys (done_urls g)
  = map fst (filter (fun entry => is_done_with_url (snd entry)) g).
Proof.
  unfold JsObject.keys, done_urls. induction g as [|[k image] g IH]; simpl; [reflexivity|].
  destruct (is_done_with_url image) eqn:Hd.
  - destruct (url image) as [u|] eqn:Hu; simpl; [now rewrite IH|].
    unfold is_done_with_url in Hd. rewrite Hu, andb_false_r in Hd. discriminate.
  - destruct (url image); simpl; exact IH.
Qed.

(** What the download hands to the compositor, when it hands anything, is
    keyed by all six decades. *)
Lemma complete_imageData (g : Store) :
  store_of_decades g ->
  Nat.ltb (length (JsObject.keys (imageData_of g))) (length DECADES) = false ->
  Permutation (JsObject.keys (imageData_of g)) DECADES.
Proof.
  intros [Hnd Hincl] Hge. apply Nat.ltb_ge in Hge.
  rewrite (imageData_of_done_urls g Hnd) in *. rewrite keys_done_urls in *.
  apply NoDup_Permutation_bis.
  - now apply NoDup_keys_filter.
  - exact Hge.
  - intros k Hk. apply Hincl. apply in_map_iff in Hk. destruct Hk as (e & <- & He).
    apply filter_In in He. unfold JsObject.keys. apply in_map, He.
Qed.

Lemma step_albums_complete (w w' : World) (e : Event) :
  keyed_by_decades w ->
  Forall (fun job => Permutation (JsObject.keys (a_imageData job)) DECADES) (albums w) ->
  step w e = Some w' ->
  Forall (fun job => Permutation (JsObject.keys (a_imageData job)) DECADES) (albums w').
Proof.
  intros (Hst & _ & _) Hall Hstep. destruct e; simpl in Hstep.
  - now injection Hstep as <-.
  - injection Hstep as <-. now rewrite (proj1 (handleGenerateClick_quiet w)).
  - injection Hstep as <-. unfold handleRegenerateDecade.
    destruct (uploadedImage w) as [image|]; [|exact Hall].
    destruct (truthy image); [|exact Hall]. simpl.
    destruct (is_pending decade (generatedImages w)); exact Hall.
  - now injection Hstep as <-.
  - injection Hstep as <-. unfold handleDownloadIndividualImage.
    destruct (JsObject.get decade (generatedImages w)) as [[st [u|] er]|]; try exact Hall.
    destruct (is_done_with_url _); exact Hall.
  - injection Hstep as <-. unfold handleDownloadAlbum.
    cbn [generatedImages setIsDownloading].
    destruct (Nat.ltb _ _) eqn:Hlt; [exact Hall|].
    cbn [albums setAlbums setIsDownloading]. apply Forall_app. split; [exact Hall|].
    constructor; [|constructor]. now apply complete_imageData.
  - now rewrite (proj1 (processDecade_settled_quiet _ _ _ _ _ Hstep)).
  - unfold handleRegenerateDecade_settled in Hstep.
    destruct (nth_error (regens w) ri) as [[image decade [|]]|]; try discriminate.
    injection Hstep as <-. destruct s; exact Hall.
  - unfold handleDownloadAlbum_settled in Hstep.
    destruct (nth_error (albums w) ai) as [[imageData [|]]|] eqn:Hjob; try discriminate.
    injection Hstep as <-.
    assert (Hthis : Permutation (JsObject.keys imageData) DECADES).
    { rewrite Forall_forall in Hall. apply (Hall _ (nth_error_In _ _ Hjob)). }
    destruct (Album.createAlbumPage br imageData); cbn [albums setAlbums];
      apply Forall_update_nth; auto.
Qed.

(** X16.  No partial album, ever.  Whatever the handlers and settlements
    that have run, in whatever order, as long as a regeneration was only
    ever asked for one of the six decades: every run of the compositor that
    was started got one url for each of the six decades and nothing else. *)
Theorem albums_are_complete (es : list Event) (w : World) (job : AlbumJob) :
  Forall asks_decades es -> run initial es = Some w -> In job (albums w) ->
  Permutation (JsObject.keys (a_imageData job)) DECADES /\
  length (a_imageData job) = 6.
Proof.
  intros Hes Hrun Hjob.
  assert (Hinv : keyed_by_decades w /\
                 Forall (fun job => Permutation (JsObject.keys (a_imageData job)) DECADES)
                        (albums w)).
  { assert (Hinit : keyed_by_decades initial /\
                    Forall (fun job => Permutation (JsObject.keys (a_imageData job)) DECADES)
                           (albums initial)).
    { split; [|constructor]. split; [apply store_of_decades_empty|]. split; constructor. }
    revert Hinit Hrun. generalize initial as w0.
    induction Hes as [|e es He _ IH]; intros w0 Hinit Hrun; simpl in Hrun.
    - now injection Hrun as <-.
    - destruct (step w0 e) as [w1|] eqn:Hstep; [|discriminate].
      apply (IH w1); [|exact Hrun]. destruct Hinit as (Hk & Ha). split.
      + eapply step_keyed; eassumption.
      + eapply step_albums_complete; eassumption. }
  destruct Hinv as (_ & Hall). rewrite Forall_forall in Hall.
  pose proof (Hall job Hjob) as Hperm. split; [exact Hperm|].
  apply Permutation_length in Hperm. unfold JsObject.keys in Hperm.
  now rewrite length_map in Hperm.
Qed.

Lemma albums_are_complete_witness :
  let es := [ImageLoaded (Some "data:image/png;base64,AA"); GenerateClick;
             DecadeSettled 0 0 (Fulfilled "data:a"); DownloadAlbumClick;
             DecadeSettled 0 1 (Rejected (ErrorObject "timeout"));
             DecadeSettled 0 0 (Fulfilled "data:c"); DecadeSettled 0 1 (Fulfilled "data:d");
             DecadeSettled 0 0 (Fulfilled "data:e"); DecadeSettled 0 1 (Fulfilled "data:f");
             DownloadAlbumClick; Shake "1960s"; RegenSettled 0 (Fulfilled "data:b");
             DownloadAlbumClick] in
  exists w job,
    run initial es = Some w /\ albums w = [job] /\ length (alerts w) = 2 /\
    length (a_imageData job) = 6.
Proof.
  intros es.
  pose (w := match run initial es with Some x => x | None => initial end).
  pose (job := mkAlbumJob [("1950s", "data:a"); ("1960s", "data:b"); ("1970s", "data:c");
                           ("1980s", "data:d"); ("1990s", "data:e"); ("2000s", "data:f")]
                 false).
  assert (Hrun : run initial es = Some w) by (vm_compute; reflexivity).
  assert (Halb : albums w = [job]) by (vm_compute; reflexivity).
  assert (Hal : length (alerts w) = 2) by (vm_compute; reflexivity).
  assert (Hes : Forall asks_decades es) by repeat constructor.
  clearbody w.
  assert (Hin : In job (albums w)) by (rewrite Halb; now left).
  destruct (albums_are_complete es w job Hes Hrun Hin) as (_ & Hlen).
  exists w, job. exact (conj Hrun (conj Halb (conj Hal Hlen))).
Defined.

(** ** A failed decade, regenerated *)

Lemma run_schedule_keeps (outcome : string -> Settlement) (bi : nat) (schedule : list nat)
    (w w' : World) :
  run_schedule outcome bi schedule w = Some w' ->
  uploadedImage w' = uploadedImage w /\ regens w' = regens w.
Proof.
  revert w. induction schedule as [|wi rest IH]; intros w H; simpl in H.
  - now injection H as <-.
  - destruct (awaited w bi wi) as [decade|]; [|discriminate].
    destruct (processDecade_settled bi wi (outcome decade) w) as [w1|] eqn:Hs; [|discriminate].
    destruct (IH w1 H) as (-> & ->). clear IH H.
    unfold processDecade_settled in Hs.
    destruct (nth_error (batches w) bi) as [b|]; [|discriminate].
    destruct (nth_error (workers b) wi) as [[d|]|]; try discriminate.
    unfold worker_run in Hs. cbn [decadesQueue] in Hs.
    destruct (worker_loop (decadesQueue b)) as [[next|] queue']; injection Hs as <-;
      unfold join; match goal with |- context [finished ?b0] => destruct (finished b0) end;
      destruct (outcome decade); split; reflexivity.
Qed.

Lemma handleDownloadAlbum_blocked (w : World) :
  Nat.ltb (length (JsObject.keys (imageData_of (generatedImages w)))) (length DECADES) = true ->
  albums (handleDownloadAlbum w) = albums w /\
  alerts (handleDownloadAlbum w)
    = "Please wait for all images to finish generating before downloading the album."
      :: alerts w /\
  generatedImages (handleDownloadAlbum w) = generatedImages w /\
  uploadedImage (handleDownloadAlbum w) = uploadedImage w /\
  regens (handleDownloadAlbum w) = regens w.
Proof.
  intros H. unfold handleDownloadAlbum. cbn [generatedImages setIsDownloading].
  rewrite H. repeat split.
Qed.

Lemma handleDownloadAlbum_started (w : World) :
  Nat.ltb (length (JsObject.keys (imageData_of (generatedImages w)))) (length DECADES) = false ->
  albums (handleDownloadAlbum w)
    = albums w ++ [mkAlbumJob (imageData_of (generatedImages w)) false] /\
  alerts (handleDownloadAlbum w) = alerts w.
Proof.
  intros H. unfold handleDownloadAlbum. cbn [generatedImages setIsDownloading].
  rewrite H. repeat split.
Qed.

Lemma handleRegenerateDecade_started (w : World) (decade image : string) :
  uploadedImage w = Some image -> truthy image = true ->
  is_pending decade (generatedImages w) = false ->
  generatedImages (handleRegenerateDecade decade w)
    = JsObject.set decade img_pending (generatedImages w) /\
  regens (handleRegenerateDecade decade w) = regens w ++ [mkRegen image decade false] /\
  albums (handleRegenerateDecade decade w) = albums w /\
  alerts (handleRegenerateDecade decade w) = alerts w.
Proof.
  intros Hup Htr Hpe. unfold handleRegenerateDecade. rewrite Hup, Htr, Hpe. repeat split.
Qed.

Lemma handleRegenerateDecade_settled_fields (w : World) (ri : nat) (image decade : string)
    (s : Settlement) :
  nth_error (regens w) ri = Some (mkRegen image decade false) ->
  exists w', handleRegenerateDecade_settled ri s w = Some w' /\
    generatedImages w' = JsObject.set decade (settled_image s) (generatedImages w) /\
    albums w' = albums w /\ alerts w' = alerts w.
Proof.
  intros Hr. unfold handleRegenerateDecade_settled. rewrite Hr.
  eexists. split; [reflexivity|]. destruct s; repeat split.
Qed.

Lemma filter_length_lt {A : Type} (f : A -> bool) (l : list A) (a : A) :
  In a l -> f a = false -> length (filter f l) < length l.
Proof.
  induction l as [|x l IH]; intros Hin Hf; [contradiction|]. simpl.
  pose proof (filter_length_le f l) as Hle.
  destruct Hin as [->|Hin].
  - rewrite Hf. lia.
  - specialize (IH Hin Hf). destruct (f x); simpl; lia.
Qed.

(** X17.  A failed decade blocks the album until it is regenerated.  Let
    the batch run with every call resolving with a non-empty url except
    the call for [failed], which is rejected.  Then the album download
    only alerts; after a regeneration of [failed] that resolves with a
    non-empty url [u], the next album download starts the compositor with
    the six urls in the order of DECADES, [u] in the place of [failed]. *)
Theorem retry_unblocks_album
    (w : World) (image failed u : string) (err : Thrown) (url_of : string -> string)
    (schedule : list nat) (w1 : World) :
  uploadedImage w = Some image -> truthy image = true ->
  In failed DECADES -> truthy u = true ->
  (forall decade, In decade DECADES -> truthy (url_of decade) = true) ->
  run_schedule (fun decade => if String.eqb decade failed then Rejected err
                              else Fulfilled (url_of decade))
    (length (batches w)) schedule (handleGenerateClick w) = Some w1 ->
  length schedule = 6 ->
  exists w2,
    run w1 [DownloadAlbumClick; Shake failed;
            RegenSettled (length (regens w)) (Fulfilled u); DownloadAlbumClick] = Some w2 /\
    alerts w2
      = "Please wait for all images to finish generating before downloading the album."
        :: alerts w /\
    albums w2
      = albums w ++
        [mkAlbumJob (map (fun decade => (decade, if String.eqb decade failed then u
                                                 else url_of decade)) DECADES) false].
Proof.
  intros Hup Htr Hfailed Hu Hurls Hrun Hsix.
  set (outcome := fun decade => if String.eqb decade failed then Rejected err
                                else Fulfilled (url_of decade)) in *.
  pose proof (history_run _ _ _ _ _ _ _ _ (history_start outcome w image Hup Htr) Hrun) as Hh.
  rewrite Hsix in Hh. simpl in Hh.
  destruct (history_complete _ _ _ _ _ Hh) as (Hg & _).
  destruct (run_schedule_quiet _ _ _ _ _ Hrun) as (Ha1 & Hl1 & _).
  destruct (handleGenerateClick_quiet w) as (Ha0 & Hl0 & _).
  rewrite Ha0 in Ha1. rewrite Hl0 in Hl1.
  destruct (run_schedule_keeps _ _ _ _ _ Hrun) as (Hup1 & Hr1).
  assert (Hup0 : uploadedImage (handleGenerateClick w) = Some image /\
                 regens (handleGenerateClick w) = regens w)
    by (unfold handleGenerateClick; rewrite Hup, Htr; split; [exact Hup | reflexivity]).
  destruct Hup0 as (Hup0 & Hr0). rewrite Hup0 in Hup1. rewrite Hr0 in Hr1.
  (* the first download is blocked *)
  assert (Hfew : Nat.ltb (length (JsObject.keys (imageData_of (generatedImages w1))))
                         (length DECADES) = true).
  { apply Nat.ltb_lt. eapply Nat.le_lt_trans; [apply imageData_keys_le|].
    unfold done_count. rewrite Hg. change (length DECADES) with
      (length (map (fun decade => (decade, settled_image (outcome decade))) DECADES)).
    apply filter_length_lt with (a := (failed, settled_image (outcome failed))).
    - now apply (in_map (fun decade => (decade, settled_image (outcome decade)))).
    - unfold outcome. now rewrite String.eqb_refl. }
  destruct (handleDownloadAlbum_blocked w1 Hfew) as (HaA & HlA & HgA & HupA & HrA).
  set (wA := handleDownloadAlbum w1) in *.
  (* the regeneration starts *)
  assert (Hnp : is_pending failed (generatedImages wA) = false).
  { unfold is_pending. rewrite HgA, Hg, (get_on_map _ failed DECADES Hfailed).
    unfold outcome. now rewrite String.eqb_refl. }
  rewrite Hup1 in HupA.
  destruct (handleRegenerateDecade_started wA failed image HupA Htr Hnp)
    as (HgB & HrB & HaB & HlB).
  set (wB := handleRegenerateDecade failed wA) in *.
  (* and settles *)
  assert (Hjob : nth_error (regens wB) (length (regens w)) = Some (mkRegen image failed false)).
  { rewrite HrB, HrA, Hr1, nth_error_app2, Nat.sub_diag; [reflexivity | lia]. }
  destruct (handleRegenerateDecade_settled_fields wB _ _ _ (Fulfilled u) Hjob)
    as (wC & HstepC & HgC & HaC & HlC).
  (* the store is now all done *)
  assert (HgC' : generatedImages wC
                 = map (fun decade => (decade, img_done (if String.eqb decade failed then u
                                                        else url_of decade))) DECADES).
  { rewrite HgC, HgB, HgA, Hg.
    rewrite set_on_map, set_on_map by (exact DECADES_NoDup || exact Hfailed).
    apply map_ext. intros d. unfold outcome. simpl.
    now destruct (String.eqb d failed). }
  assert (Himg : imageData_of (generatedImages wC)
                 = map (fun decade => (decade, if String.eqb decade failed then u
                                               else url_of decade)) DECADES).
  { rewrite HgC', imageData_of_done_urls by (rewrite keys_of_map; exact DECADES_NoDup).
    apply (done_urls_all_done (fun decade => if String.eqb decade failed then u
                                             else url_of decade)).
    intros d Hd. destruct (String.eqb d failed); auto. }
  assert (Hfull : Nat.ltb (length (JsObject.keys (imageData_of (generatedImages wC))))
                          (length DECADES) = false).
  { rewrite Himg, keys_of_map. reflexivity. }
  destruct (handleDownloadAlbum_started wC Hfull) as (HaD & HlD).
  exists (handleDownloadAlbum wC). split.
  - cbn [run step]. fold wA. fold wB. now rewrite HstepC.
  - split.
    + now rewrite HlD, HlC, HlB, HlA, Hl1.
    + now rewrite HaD, Himg, HaC, HaB, HaA, Ha1.
Qed.

Lemma retry_unblocks_album_witness :
  let w := handleImageUpload (Some "data:image/png;base64,AA") initial in
  let url_of := fun decade : string => ("data:" ++ decade)%string in
  let outcome := fun decade => if String.eqb decade "1980s"
                               then Rejected (ErrorObject "timeout")
                               else Fulfilled (url_of decade) in
  exists w1 w2,
    run_schedule outcome 0 [0; 0; 1; 0; 1; 0] (handleGenerateClick w) = Some w1 /\
    JsObject.get "1980s" (generatedImages w1) = Some (img_error "timeout") /\
    run w1 [DownloadAlbumClick; Shake "1980s"; RegenSettled 0 (Fulfilled "data:retry");
            DownloadAlbumClick] = Some w2 /\
    length (alerts w2) = 1 /\ length (albums w2) = 1.
Proof.
  intros w url_of outcome.
  pose (w1 := match run_schedule outcome 0 [0; 0; 1; 0; 1; 0] (handleGenerateClick w) with
              | Some x => x | None => initial end).
  assert (Hrun : run_schedule outcome 0 [0; 0; 1; 0; 1; 0] (handleGenerateClick w) = Some w1)
    by (vm_compute; reflexivity).
  assert (Hget : JsObject.get "1980s" (generatedImages w1) = Some (img_error "timeout"))
    by (vm_compute; reflexivity).
  clearbody w1.
  assert (Hurls : forall decade, In decade DECADES -> truthy (url_of decade) = true).
  { intros d Hd. unfold DECADES in Hd. simpl in Hd.
    repeat destruct Hd as [<-|Hd]; try reflexivity; contradiction. }
  assert (Hin : In "1980s" DECADES) by (simpl; tauto).
  destruct (retry_unblocks_album w "data:image/png;base64,AA" "1980s" "data:retry"
              (ErrorObject "timeout") url_of [0; 0; 1; 0; 1; 0] w1
              eq_refl eq_refl Hin eq_refl Hurls Hrun eq_refl) as (w2 & Hrun2 & Hal & Halb).
  exists w1, w2. split; [exact Hrun|]. split; [exact Hget|]. split; [exact Hrun2|].
  split; [now rewrite Hal | now rewrite Halb].
Defined.
